(** * A shallow embedding of the YouTube translation agent

    The development follows [agent.py] (the one-shot command) and
    [server.py] (the job service): identifier extraction, transcript
    retrieval with one fallback, translation and summarisation through the
    model service, the artifact store, and the job registry.

    Python [str] values are sequences of Unicode code points; they are
    modelled as [list N].  The external services (transcript API, model
    API, clock, UUID source) are parameters of the embedding. *)

From Stdlib Require Import NArith ZArith List String Ascii Bool Lia.
From stdpp Require Import base option list gmap sorting.
Import ListNotations.

Set Default Proof Using "Type".

(** ** Python strings *)

Abbreviation str := (list N).

(** An ASCII literal of the source, as a code-point sequence. *)
Definition lit (s : string) : str :=
  List.map N_of_ascii (list_ascii_of_string s).

(** [str.isspace] for one character; the same set is matched by [\s] in a
    [str] pattern. *)
Definition is_space (c : N) : bool :=
  (((9 <=? c) && (c <=? 13)) || ((28 <=? c) && (c <=? 32))
   || (c =? 133) || (c =? 160) || (c =? 5760)
   || ((8192 <=? c) && (c <=? 8202))
   || (c =? 8232) || (c =? 8233) || (c =? 8239) || (c =? 8287)
   || (c =? 12288))%N.

Fixpoint lstrip (s : str) : str :=
  match s with
  | c :: s' => if is_space c then lstrip s' else s
  | [] => []
  end.

Definition rstrip (s : str) : str := rev (lstrip (rev s)).

(** [s.strip()] *)
Definition strip (s : str) : str := rstrip (lstrip s).

(** [sep.join(parts)] *)
Fixpoint join (sep : str) (parts : list str) : str :=
  match parts with
  | [] => []
  | [p] => p
  | p :: ps => p ++ sep ++ join sep ps
  end.

(** [s.startswith(p)], returning the remainder. *)
Fixpoint strip_prefix (p s : str) : option str :=
  match p, s with
  | [], _ => Some s
  | a :: p', b :: s' => if (a =? b)%N then strip_prefix p' s' else None
  | _ :: _, [] => None
  end.

(** ** Exceptions *)

Inductive exn_kind :=
| ValueError | KeyError | IndexError | AttributeError | TypeError
| JSONDecodeError | RecursionError | OSError | ServiceError | HTTPException.

(** An exception carries its class and the text [str(e)] yields. *)
Record exn := Exn { exn_kind_of : exn_kind; exn_str : str }.

(** What evaluating a Python expression gives: a value or a raised
    exception. *)
Inductive outcome (A : Type) :=
| Ok (a : A)
| Raise (e : exn).
Arguments Ok {A} a.
Arguments Raise {A} e.

Definition obind {A B} (x : outcome A) (f : A -> outcome B) : outcome B :=
  match x with
  | Ok a => f a
  | Raise e => Raise e
  end.

Notation "'let*' p ':=' c 'in' k" := (obind c (fun p => k))
  (at level 10, p pattern, c at level 100, k at level 200).

(** ** JSON ([json.loads], [json.dump])

    Values as [json.loads] builds them: [None], [bool], [int], [float],
    [str], [list], and [dict] with insertion order.  A [float] is kept as the
    text it was read from; floating-point arithmetic is outside the
    embedding. *)
Module Json.

#[local] Unset Elimination Schemes.
Inductive value :=
| Null
| Bool (b : bool)
| Int (z : Z)
| Float (lexeme : str)
| Str (s : str)
| Arr (l : list value)
| Obj (d : list (str * value)).
#[local] Set Elimination Schemes.

(** [d[k] = v] on an insertion-ordered [dict]. *)
Fixpoint dict_set (k : str) (v : value) (d : list (str * value))
    : list (str * value) :=
  match d with
  | [] => [(k, v)]
  | (k', v') :: d' =>
      if decide (k = k') then (k, v) :: d' else (k', v') :: dict_set k v d'
  end.

(** [d.get(k)] *)
Fixpoint dict_get (k : str) (d : list (str * value)) : option value :=
  match d with
  | [] => None
  | (k', v) :: d' => if decide (k = k') then Some v else dict_get k d'
  end.

Definition error (msg : string) : exn := Exn JSONDecodeError (lit msg).

(** The decoder's white space: space, tab, line feed, carriage return. *)
Definition is_ws (c : N) : bool :=
  ((c =? 32) || (c =? 9) || (c =? 10) || (c =? 13))%N.

Fixpoint skip_ws (s : str) : str :=
  match s with
  | c :: s' => if is_ws c then skip_ws s' else s
  | [] => []
  end.

Definition is_digit (c : N) : bool := ((48 <=? c) && (c <=? 57))%N.

Definition hex_val (c : N) : option N :=
  if is_digit c then Some (c - 48)%N
  else if ((97 <=? c) && (c <=? 102))%N then Some (c - 87)%N
  else if ((65 <=? c) && (c <=? 70))%N then Some (c - 55)%N
  else None.

(** The four hexadecimal digits after [\u]. *)
Definition hex4 (a b c d : N) : option N :=
  match hex_val a, hex_val b, hex_val c, hex_val d with
  | Some x, Some y, Some z, Some w => Some (((x * 16 + y) * 16 + z) * 16 + w)%N
  | _, _, _, _ => None
  end.

(** The character a one-letter escape stands for. *)
Definition unescape (c : N) : option N :=
  if (c =? 34)%N then Some 34%N          (* quotation mark *)
  else if (c =? 92)%N then Some 92%N     (* reverse solidus *)
  else if (c =? 47)%N then Some 47%N     (* solidus *)
  else if (c =? 98)%N then Some 8%N      (* b: backspace *)
  else if (c =? 102)%N then Some 12%N    (* f: form feed *)
  else if (c =? 110)%N then Some 10%N    (* n: line feed *)
  else if (c =? 114)%N then Some 13%N    (* r: carriage return *)
  else if (c =? 116)%N then Some 9%N     (* t: tab *)
  else None.

Definition is_high_surrogate (u : N) : bool := ((55296 <=? u) && (u <=? 56319))%N.
Definition is_low_surrogate (u : N) : bool := ((56320 <=? u) && (u <=? 57343))%N.

(** [scanstring], entered after the opening quote, in strict mode. *)
Fixpoint scan_string (s : str) (acc : str) : outcome (str * str) :=
  match s with
  | [] => Raise (error "Unterminated string starting at")
  | c :: s1 =>
      if (c =? 34)%N then Ok (rev acc, s1)
      else if (c =? 92)%N then
        match s1 with
        | [] => Raise (error "Unterminated string starting at")
        | e :: s2 =>
            if (e =? 117)%N then
              match s2 with
              | h1 :: h2 :: h3 :: h4 :: s3 =>
                  match hex4 h1 h2 h3 h4 with
                  | None => Raise (error "Invalid \uXXXX escape")
                  | Some u =>
                      match s3 with
                      | b :: x :: g1 :: g2 :: g3 :: g4 :: s4 =>
                          match hex4 g1 g2 g3 g4 with
                          | Some u2 =>
                              if is_high_surrogate u && (b =? 92)%N && (x =? 117)%N
                                 && is_low_surrogate u2
                              then scan_string s4
                                     ((65536 + (u - 55296) * 1024 + (u2 - 56320))%N :: acc)
                              else scan_string s3 (u :: acc)
                          | None =>
                              if is_high_surrogate u && (b =? 92)%N && (x =? 117)%N
                              then Raise (error "Invalid \uXXXX escape")
                              else scan_string s3 (u :: acc)
                          end
                      | _ => scan_string s3 (u :: acc)
                      end
                  end
              | _ => Raise (error "Invalid \uXXXX escape")
              end
            else
              match unescape e with
              | Some c' => scan_string s2 (c' :: acc)
              | None => Raise (error "Invalid \escape")
              end
        end
      else if (c <? 32)%N then Raise (error "Invalid control character at")
      else scan_string s1 (c :: acc)
  end.

(** The longest run of decimal digits. *)
Fixpoint span_digits (s : str) : str * str :=
  match s with
  | c :: s' =>
      if is_digit c then let '(ds, r) := span_digits s' in (c :: ds, r)
      else ([], s)
  | [] => ([], [])
  end.

Definition digits_value (ds : str) : Z :=
  fold_left (fun acc c => (acc * 10 + Z.of_N (c - 48))%Z) ds 0%Z.

(** The decoder's number pattern: an optional minus sign, an integer part
    without leading zeros, an optional fraction and an optional exponent.
    Each part returns what it matched and what is left. *)
Definition scan_sign (s : str) : str * str :=
  match s with
  | c :: s' => if (c =? 45)%N then ([45%N], s') else ([], s)
  | [] => ([], s)
  end.

Definition scan_int (s : str) : option (str * str) :=
  match s with
  | c :: s' =>
      if (c =? 48)%N then Some ([48%N], s')
      else if is_digit c then Some (span_digits s)
      else None
  | [] => None
  end.

Definition scan_frac (s : str) : str * str :=
  match s with
  | c :: s' =>
      if (c =? 46)%N then
        match span_digits s' with
        | ([], _) => ([], s)
        | (fs, r) => (c :: fs, r)
        end
      else ([], s)
  | [] => ([], s)
  end.

Definition scan_exp (s : str) : str * str :=
  match s with
  | c :: s' =>
      if ((c =? 101) || (c =? 69))%N then
        let '(sg, s'') :=
          match s' with
          | d :: t => if ((d =? 43) || (d =? 45))%N then ([d], t) else ([], s')
          | [] => ([], s')
          end in
        match span_digits s'' with
        | ([], _) => ([], s)
        | (es, r) => (c :: sg ++ es, r)
        end
      else ([], s)
  | [] => ([], s)
  end.

Definition scan_number (s : str) : option (value * str) :=
  let '(sign, s1) := scan_sign s in
  match scan_int s1 with
  | None => None
  | Some (ds, s2) =>
      let '(frac, s3) := scan_frac s2 in
      let '(exp, s4) := scan_exp s3 in
      match frac, exp with
      | [], [] =>
          Some (Int (match sign with
                     | [] => digits_value ds
                     | _ :: _ => (- digits_value ds)%Z
                     end), s4)
      | _, _ => Some (Float (sign ++ ds ++ frac ++ exp), s4)
      end
  end.

(** [scan_once] and the loops of [JSONObject] and [JSONArray].  The fuel
    bounds the number of calls. *)
Fixpoint scan_once (fuel : nat) (s : str) : outcome (value * str) :=
  match fuel with
  | O => Raise (Exn RecursionError (lit "maximum recursion depth exceeded"))
  | S fuel' =>
      match s with
      | [] => Raise (error "Expecting value")
      | c :: s1 =>
          if (c =? 34)%N then
            let* (x, r) := scan_string s1 [] in Ok (Str x, r)
          else if (c =? 123)%N then
            match skip_ws s1 with
            | [] => Raise (error "Expecting property name enclosed in double quotes")
            | d :: s2 =>
                if (d =? 125)%N then Ok (Obj [], s2)
                else scan_pairs fuel' (d :: s2) []
            end
          else if (c =? 91)%N then
            match skip_ws s1 with
            | [] => Raise (error "Expecting value")
            | d :: s2 =>
                if (d =? 93)%N then Ok (Arr [], s2)
                else scan_items fuel' (d :: s2) []
            end
          else
            match strip_prefix (lit "null") s with
            | Some r => Ok (Null, r)
            | None =>
            match strip_prefix (lit "true") s with
            | Some r => Ok (Bool true, r)
            | None =>
            match strip_prefix (lit "false") s with
            | Some r => Ok (Bool false, r)
            | None =>
            match scan_number s with
            | Some vr => Ok vr
            | None =>
            match strip_prefix (lit "NaN") s with
            | Some r => Ok (Float (lit "NaN"), r)
            | None =>
            match strip_prefix (lit "Infinity") s with
            | Some r => Ok (Float (lit "Infinity"), r)
            | None =>
            match strip_prefix (lit "-Infinity") s with
            | Some r => Ok (Float (lit "-Infinity"), r)
            | None => Raise (error "Expecting value")
            end end end end end end end
      end
  end
with scan_pairs (fuel : nat) (s : str) (acc : list (str * value))
    : outcome (value * str) :=
  match fuel with
  | O => Raise (Exn RecursionError (lit "maximum recursion depth exceeded"))
  | S fuel' =>
      match s with
      | [] => Raise (error "Expecting property name enclosed in double quotes")
      | q :: s1 =>
          if (q =? 34)%N then
            let* (key, s2) := scan_string s1 [] in
            match skip_ws s2 with
            | [] => Raise (error "Expecting ':' delimiter")
            | c :: s3 =>
                if (c =? 58)%N then
                  let* (v, s4) := scan_once fuel' (skip_ws s3) in
                  match skip_ws s4 with
                  | [] => Raise (error "Expecting ',' delimiter")
                  | d :: s5 =>
                      if (d =? 125)%N then Ok (Obj (dict_set key v acc), s5)
                      else if (d =? 44)%N then
                        scan_pairs fuel' (skip_ws s5) (dict_set key v acc)
                      else Raise (error "Expecting ',' delimiter")
                  end
                else Raise (error "Expecting ':' delimiter")
            end
          else Raise (error "Expecting property name enclosed in double quotes")
      end
  end
with scan_items (fuel : nat) (s : str) (acc : list value)
    : outcome (value * str) :=
  match fuel with
  | O => Raise (Exn RecursionError (lit "maximum recursion depth exceeded"))
  | S fuel' =>
      let* (v, s1) := scan_once fuel' s in
      match skip_ws s1 with
      | [] => Raise (error "Expecting ',' delimiter")
      | d :: s2 =>
          if (d =? 93)%N then Ok (Arr (rev (v :: acc)), s2)
          else if (d =? 44)%N then scan_items fuel' (skip_ws s2) (v :: acc)
          else Raise (error "Expecting ',' delimiter")
      end
  end.

(** *** Encoding ([json.dump] with [ensure_ascii=False, indent=2]) *)

Definition hex_digit (n : N) : N := (if n <? 10 then 48 + n else 87 + n)%N.

(** The replacement the encoder's escape table gives for one character. *)
Definition escape_char (c : N) : str :=
  (if c =? 34 then [92; 34]
   else if c =? 92 then [92; 92]
   else if c =? 10 then [92; 110]
   else if c =? 13 then [92; 114]
   else if c =? 9 then [92; 116]
   else if c =? 8 then [92; 98]
   else if c =? 12 then [92; 102]
   else if c <? 32 then [92; 117; 48; 48; hex_digit (c / 16); hex_digit (c mod 16)]
   else [c])%N.

Definition encode_string (s : str) : str :=
  [34%N] ++ flat_map escape_char s ++ [34%N].

(** Decimal digits of a natural number, most significant first. *)
Fixpoint digits_of (fuel : nat) (n : N) (acc : str) : str :=
  match fuel with
  | O => acc
  | S fuel' =>
      if (n <? 10)%N then (48 + n)%N :: acc
      else digits_of fuel' (n / 10)%N ((48 + n mod 10)%N :: acc)
  end.

Definition encode_nat (n : N) : str := digits_of (S (N.to_nat (N.log2 n))) n [].

Definition encode_int (z : Z) : str :=
  match z with
  | Z0 => [48%N]
  | Zpos p => encode_nat (Npos p)
  | Zneg p => 45%N :: encode_nat (Npos p)
  end.

(** A line break followed by the indentation of a nesting level. *)
Definition newline_indent (level : nat) : str :=
  10%N :: repeat 32%N (2 * level).

Fixpoint encode (level : nat) (v : value) {struct v} : str :=
  match v with
  | Null => lit "null"
  | Bool true => lit "true"
  | Bool false => lit "false"
  | Int z => encode_int z
  | Float lexeme => lexeme
  | Str s => encode_string s
  | Arr [] => lit "[]"
  | Arr (x :: l) =>
      lit "[" ++ newline_indent (S level) ++ encode (S level) x
      ++ flat_map (fun y => lit "," ++ newline_indent (S level) ++ encode (S level) y) l
      ++ newline_indent level ++ lit "]"
  | Obj [] => lit "{}"
  | Obj ((k, x) :: d) =>
      lit "{" ++ newline_indent (S level)
      ++ encode_string k ++ lit ": " ++ encode (S level) x
      ++ flat_map (fun kv => lit "," ++ newline_indent (S level)
                             ++ encode_string (fst kv) ++ lit ": "
                             ++ encode (S level) (snd kv)) d
      ++ newline_indent level ++ lit "}"
  end.

Definition dumps (v : value) : str := encode 0 v.

(** What may follow a number without being taken for part of it. *)
Definition ends_number (rest : str) : bool :=
  match rest with
  | [] => true
  | c :: _ => negb (is_digit c || (c =? 46) || (c =? 101) || (c =? 69))%N
  end.

(** The values the round trip is stated for: no [float] anywhere, and no
    key twice in a dictionary (a Python [dict] never has one). *)
Fixpoint plain (v : value) : bool :=
  match v with
  | Float _ => false
  | Arr l => forallb plain l
  | Obj d =>
      bool_decide (NoDup (List.map fst d)) && forallb (fun kv => plain (snd kv)) d
  | _ => true
  end.

(** An upper bound on the calls of [scan_once], [scan_pairs] and
    [scan_items] that decoding the encoding of a value takes. *)
Fixpoint calls (v : value) : nat :=
  match v with
  | Arr l => S (list_sum (List.map (fun x => S (calls x)) l))
  | Obj d => S (list_sum (List.map (fun kv => S (calls (snd kv))) d))
  | _ => 1
  end.

(** The decoder reads the encoding of [v] back, at any nesting level and
    before any text that cannot continue a number. *)
Definition reads_back (v : value) : Prop :=
  forall (level : nat) (rest : str) (fuel : nat),
    ends_number rest = true -> calls v <= fuel ->
    scan_once fuel (encode level v ++ rest) = Ok (v, rest).

(** [json.loads(s)]: one value, white space around it, nothing else. *)
Definition loads (s : str) : outcome value :=
  let* (v, r) := scan_once (2 * length s + 2) (skip_ws s) in
  match skip_ws r with
  | [] => Ok v
  | _ :: _ => Raise (error "Extra data")
  end.

End Json.

(** ** Regular expressions

    The fragment of [re] the two source files use: literals, character
    classes, concatenation, ordered alternation, a greedy star and a
    counted repetition over a class, the anchors [^] and [$], and one
    capturing group.  Matching is backtracking with continuations, as in
    [re]. *)
Module Re.

Inductive regex :=
| Lit (s : str)
| Class (p : N -> bool)
| Cat (r1 r2 : regex)
| Alt (r1 r2 : regex)
| Star (p : N -> bool)
| Rep (n : nat) (p : N -> bool)
| Bol
| Eol
| Group (r : regex).

(** A position in the subject: the offset, the text from there on, and what
    group 1 has captured. *)
Record mstate := MState { pos : nat; rest : str; group1 : option str }.

(** [p*], longest first, giving characters back on failure. *)
Fixpoint star {A} (p : N -> bool) (i : nat) (s : str) (g : option str)
    (k : mstate -> option A) : option A :=
  match s with
  | c :: s' =>
      if p c then
        match star p (S i) s' g k with
        | Some a => Some a
        | None => k (MState i s g)
        end
      else k (MState i s g)
  | [] => k (MState i s g)
  end.

Fixpoint rep {A} (n : nat) (p : N -> bool) (i : nat) (s : str) (g : option str)
    (k : mstate -> option A) : option A :=
  match n with
  | O => k (MState i s g)
  | S n' =>
      match s with
      | c :: s' => if p c then rep n' p (S i) s' g k else None
      | [] => None
      end
  end.

Fixpoint rmatch {A} (r : regex) (st : mstate) (k : mstate -> option A)
    : option A :=
  match r with
  | Lit l =>
      match strip_prefix l (rest st) with
      | Some s' => k (MState (pos st + length l) s' (group1 st))
      | None => None
      end
  | Class p =>
      match rest st with
      | c :: s' => if p c then k (MState (S (pos st)) s' (group1 st)) else None
      | [] => None
      end
  | Cat r1 r2 => rmatch r1 st (fun st' => rmatch r2 st' k)
  | Alt r1 r2 =>
      match rmatch r1 st k with
      | Some a => Some a
      | None => rmatch r2 st k
      end
  | Star p => star p (pos st) (rest st) (group1 st) k
  | Rep n p => rep n p (pos st) (rest st) (group1 st) k
  | Bol => if Nat.eqb (pos st) 0 then k st else None
  | Eol =>
      (* without MULTILINE, [$] holds at the end and before a final newline *)
      match rest st with
      | [] => k st
      | [10%N] => k st
      | _ => None
      end
  | Group r' =>
      rmatch r' st (fun st' =>
        k (MState (pos st') (rest st')
             (Some (take (pos st' - pos st) (rest st)))))
  end.

(** [re.match] anchored at a position. *)
Definition match_at (r : regex) (i : nat) (s : str) : option mstate :=
  rmatch r (MState i s None) Some.

(** [re.search]: the leftmost position at which the pattern matches. *)
Fixpoint search_from (r : regex) (i : nat) (s : str) : option mstate :=
  match match_at r i s with
  | Some m => Some m
  | None =>
      match s with
      | [] => None
      | _ :: s' => search_from r (S i) s'
      end
  end.

Definition search (r : regex) (s : str) : option mstate := search_from r 0 s.

(** [re.sub(r, '', s)]: every non-overlapping match, scanning left to
    right, is deleted.  An empty match deletes nothing and the scan moves on
    by one character. *)
Fixpoint sub_from (fuel : nat) (r : regex) (i : nat) (s : str) : str :=
  match fuel with
  | O => s
  | S fuel' =>
      let skip :=
        match s with
        | [] => []
        | c :: s' => c :: sub_from fuel' r (S i) s'
        end in
      match match_at r i s with
      | Some m => if Nat.ltb i (pos m) then sub_from fuel' r (pos m) (rest m) else skip
      | None => skip
      end
  end.

Definition sub_empty (r : regex) (s : str) : str :=
  sub_from (S (length s)) r 0 s.

End Re.

(** ** Identifier extraction ([extract_video_id], both files) *)

(** [[a-zA-Z0-9_-]] *)
Definition is_id_char (c : N) : bool :=
  (((97 <=? c) && (c <=? 122)) || ((65 <=? c) && (c <=? 90))
   || ((48 <=? c) && (c <=? 57)) || (c =? 95) || (c =? 45))%N.

(** The three prefixes of the first pattern. *)
Definition markers : list str := [lit "v="; lit "/v/"; lit "youtu.be/"].

Definition patterns : list Re.regex :=
  [ Re.Cat (Re.Alt (Re.Lit (lit "v="))
              (Re.Alt (Re.Lit (lit "/v/")) (Re.Lit (lit "youtu.be/"))))
      (Re.Group (Re.Rep 11 is_id_char));
    Re.Cat Re.Bol (Re.Cat (Re.Group (Re.Rep 11 is_id_char)) Re.Eol) ].

(** "유효한 YouTube URL이 아닙니다: " *)
Definition invalid_url_prefix : str :=
  [50976; 54952; 54620; 32; 89; 111; 117; 84; 117; 98; 101; 32; 85; 82; 76;
   51060; 32; 50500; 45785; 45768; 45796; 58; 32]%N.

Fixpoint first_match (ps : list Re.regex) (url : str) : option str :=
  match ps with
  | [] => None
  | p :: ps' =>
      match Re.search p url with
      | Some m => Some (default [] (Re.group1 m))
      | None => first_match ps' url
      end
  end.

Definition extract_video_id (url : str) : outcome str :=
  match first_match patterns url with
  | Some id => Ok id
  | None => Raise (Exn ValueError (invalid_url_prefix ++ url))
  end.

(** A string of eleven characters of the identifier alphabet. *)
Definition is_token (t : str) : bool :=
  Nat.eqb (length t) 11 && forallb is_id_char t.

Definition url_pattern : Re.regex :=
  Re.Cat (Re.Alt (Re.Lit (lit "v="))
            (Re.Alt (Re.Lit (lit "/v/")) (Re.Lit (lit "youtu.be/"))))
    (Re.Group (Re.Rep 11 is_id_char)).

Definition bare_pattern : Re.regex :=
  Re.Cat Re.Bol (Re.Cat (Re.Group (Re.Rep 11 is_id_char)) Re.Eol).

Definition marker_alt : Re.regex :=
  Re.Alt (Re.Lit (lit "v=")) (Re.Alt (Re.Lit (lit "/v/")) (Re.Lit (lit "youtu.be/"))).

(** [tok] stands in [s] at offset [n], right after one of the markers. *)
Definition marked_at (s : str) (n : nat) (tok : str) : Prop :=
  ∃ pre mark post, s = pre ++ mark ++ tok ++ post ∧ length pre = n
                   ∧ In mark markers ∧ is_token tok = true.

(** ** The fence pattern of [summarize]

    [re.sub(r'^```json\s*|\s*```$', '', result_text.strip())] *)

Definition fence_open : str := lit "```json".
Definition fence_close : str := lit "```".

Definition fence_pattern : Re.regex :=
  Re.Alt (Re.Cat Re.Bol (Re.Cat (Re.Lit fence_open) (Re.Star is_space)))
         (Re.Cat (Re.Star is_space) (Re.Cat (Re.Lit fence_close) Re.Eol)).

(** The second alternative of the pattern. *)
Definition fence_tail : Re.regex :=
  Re.Cat (Re.Star is_space) (Re.Cat (Re.Lit fence_close) Re.Eol).

Definition strip_fence (result_text : str) : str :=
  Re.sub_empty fence_pattern (strip result_text).

(** The fenced form of a text: [```json], the text, [```], with any white
    space around and between. *)
Definition fenced (ws1 ws2 q ws3 ws4 : str) : str :=
  ws1 ++ fence_open ++ ws2 ++ q ++ ws3 ++ fence_close ++ ws4.

(** [s.startswith(p)] and [s.endswith(p)] *)
Definition starts_with (p s : str) : bool :=
  match strip_prefix p s with Some _ => true | None => false end.
Definition ends_with (p s : str) : bool := starts_with (rev p) (rev s).

(** ** The job registry, the output directory and the order of effects *)

Inductive job_status := pending | processing | completed | failed.

(** One entry of the [jobs] dictionary.  [html_path] is a key the entry
    only gains on completion. *)
Module Job.
Record t := Make {
  status : job_status;
  video_id : option str;
  step : str;
  error : option str;
  result : option Json.value;
  html_path : option str
}.
Definition set_status (x : job_status) (j : t) : t :=
  Make x (video_id j) (step j) (error j) (result j) (html_path j).
Definition set_video_id (x : option str) (j : t) : t :=
  Make (status j) x (step j) (error j) (result j) (html_path j).
Definition set_step (x : str) (j : t) : t :=
  Make (status j) (video_id j) x (error j) (result j) (html_path j).
Definition set_error (x : option str) (j : t) : t :=
  Make (status j) (video_id j) (step j) x (result j) (html_path j).
Definition set_result (x : option Json.value) (j : t) : t :=
  Make (status j) (video_id j) (step j) (error j) x (html_path j).
Definition set_html_path (x : option str) (j : t) : t :=
  Make (status j) (video_id j) (step j) (error j) (result j) x.

(** One assignment [jobs[job_id][key] = value]. *)
Inductive assignment :=
| Status (x : job_status)
| VideoId (x : str)
| Step (x : str)
| Error (x : str)
| Result (x : Json.value)
| HtmlPath (x : str).

Definition assign (a : assignment) (j : t) : t :=
  match a with
  | Status x => set_status x j
  | VideoId x => set_video_id (Some x) j
  | Step x => set_step x j
  | Error x => set_error (Some x) j
  | Result x => set_result (Some x) j
  | HtmlPath x => set_html_path (Some x) j
  end.
End Job.

(** The effects a run performs, in the order it performs them.  The log is
    ghost state: it records what a concurrent observer (a poll, the
    services, the file system) could see and when.  [EPut] and [ESet] carry
    the registry entry as the write leaves it. *)
Inductive event :=
| EFetch (video_id : str) (languages : option (list str))
| ECreate (max_tokens : N) (system user : str)
| EPut (job_id : str) (j : Job.t)
| ESet (job_id : str) (a : Job.assignment) (j : Job.t)
| EFile (path content : str)
| ETask (job_id url : str).

Record world := World {
  jobs : gmap str Job.t;
  files : gmap str str;
  log : list event
}.

Definition empty_world : world := World ∅ ∅ [].

(** Code that reads and writes the world and may raise.  What was written
    before an exception stays written. *)
Definition M (A : Type) : Type := world -> world * outcome A.

Definition ret {A} (a : A) : M A := fun w => (w, Ok a).
Definition raise {A} (e : exn) : M A := fun w => (w, Raise e).
Definition lift {A} (x : outcome A) : M A := fun w => (w, x).

Definition bind {A B} (m : M A) (f : A -> M B) : M B :=
  fun w =>
    match m w with
    | (w', Ok a) => f a w'
    | (w', Raise e) => (w', Raise e)
    end.

Notation "'let!' p ':=' c 'in' k" := (bind c (fun p => k))
  (at level 10, p pattern, c at level 100, k at level 200).

(** [try: body / except Exception as e: handler(e)] *)
Definition try_except {A} (body : M A) (handler : exn -> M A) : M A :=
  fun w =>
    match body w with
    | (w', Ok a) => (w', Ok a)
    | (w', Raise e) => handler e w'
    end.

Definition emit (e : event) (w : world) : world :=
  World (jobs w) (files w) (log w ++ [e]).

(** Several events, in order. *)
Definition emits (l : list event) (w : world) : world :=
  World (jobs w) (files w) (log w ++ l).

(** [repr] of a short ASCII string, as [KeyError] prints its key. *)
Definition py_repr (s : str) : str := lit "'" ++ s ++ lit "'".

(** [jobs[job_id][key] = value] *)
Definition set_job (job_id : str) (a : Job.assignment) : M unit :=
  fun w =>
    match jobs w !! job_id with
    | Some j =>
        (emit (ESet job_id a (Job.assign a j))
           (World (<[job_id := Job.assign a j]> (jobs w)) (files w) (log w)),
         Ok tt)
    | None => (w, Raise (Exn KeyError (py_repr job_id)))
    end.

(** [jobs[job_id] = record] *)
Definition put_job (job_id : str) (j : Job.t) : M unit :=
  fun w =>
    (emit (EPut job_id j) (World (<[job_id := j]> (jobs w)) (files w) (log w)), Ok tt).

(** [with open(path, 'w') as f: f.write(content)]; the file system is taken
    to accept the write. *)
Definition write_file (path content : str) : M unit :=
  fun w =>
    (emit (EFile path content) (World (jobs w) (<[path := content]> (files w)) (log w)),
     Ok tt).

(** [background_tasks.add_task(process_video, job_id, url)] *)
Definition add_task (job_id url : str) : M unit :=
  fun w => (emit (ETask job_id url) w, Ok tt).

(** ** Sorting ([sorted(..., key=..., reverse=True)]) *)

(** [a < b] on [str]: lexicographic on code points. *)
Fixpoint str_ltb (a b : str) : bool :=
  match a, b with
  | _, [] => false
  | [], _ :: _ => true
  | x :: a', y :: b' => (x <? y)%N || ((x =? y)%N && str_ltb a' b')
  end.

Definition type_name (v : Json.value) : str :=
  match v with
  | Json.Null => lit "NoneType"
  | Json.Bool _ => lit "bool"
  | Json.Int _ => lit "int"
  | Json.Float _ => lit "float"
  | Json.Str _ => lit "str"
  | Json.Arr _ => lit "list"
  | Json.Obj _ => lit "dict"
  end.

(** [a < b] on the keys the listing sorts by.  Strings compare as above and
    integers by value; the other combinations a stored document can reach
    ([None], or a string against a number) raise [TypeError]. *)
Definition py_lt (a b : Json.value) : outcome bool :=
  match a, b with
  | Json.Str x, Json.Str y => Ok (str_ltb x y)
  | Json.Int x, Json.Int y => Ok (x <? y)%Z
  | _, _ =>
      Raise (Exn TypeError
               (lit "'<' not supported between instances of " ++ py_repr (type_name a)
                ++ lit " and " ++ py_repr (type_name b)))
  end.

Section Sorted.
Context {A : Type} (key : A -> Json.value).

(** Put [x], which stood before every element of [l], into the sorted
    [l]: it passes the elements with a strictly larger key only, so equal
    keys keep their order. *)
Fixpoint insert_desc (x : A) (l : list A) : outcome (list A) :=
  match l with
  | [] => Ok [x]
  | y :: l' =>
      let* smaller := py_lt (key x) (key y) in
      if smaller : bool then
        let* r := insert_desc x l' in Ok (y :: r)
      else Ok (x :: l)
  end.

Fixpoint sorted_desc (l : list A) : outcome (list A) :=
  match l with
  | [] => Ok []
  | x :: l' => let* r := sorted_desc l' in insert_desc x r
  end.
End Sorted.

(** ** The pipeline stages *)

(** What the code reaches outside the process. *)
Record services := Services {
  (** [os.getenv('ANTHROPIC_API_KEY')] *)
  getenv_api_key : option str;
  (** [YouTubeTranscriptApi().fetch(video_id, languages=...)]: the [text] of
      each fragment, in order *)
  api_fetch : str -> option (list str) -> outcome (list str);
  (** [client.messages.create(max_tokens, system, user content)]: the
      [text] of each block of [response.content] *)
  messages_create : N -> str -> str -> outcome (list str);
  (** [datetime.now().isoformat()] *)
  now_isoformat : str;
  (** the two [system_prompt] texts *)
  translate_prompt : str;
  summarize_prompt : str;
  (** the markup [generate_html] returns *)
  html_page : str -> str -> Json.value -> str;
  (** [str(OUTPUT_DIR)] *)
  output_dir : str
}.

(** "ANTHROPIC_API_KEY 환경변수가 설정되지 않았습니다." *)
Definition missing_key_message : str :=
  [65; 78; 84; 72; 82; 79; 80; 73; 67; 95; 65; 80; 73; 95; 75; 69; 89; 32;
   54872; 44221; 48320; 49688; 44032; 32; 49444; 51221; 46104; 51648; 32;
   50506; 50520; 49845; 45768; 45796; 46]%N.

(** "다음 영어 스크립트를 한글로 번역해주세요:\n\n" *)
Definition translate_request : str :=
  [45796; 51020; 32; 50689; 50612; 32; 49828; 53356; 47549; 53944; 47484; 32;
   54620; 44544; 47196; 32; 48264; 50669; 54644; 51452; 49464; 50836; 58;
   10; 10]%N.

(** "다음 콘텐츠를 분석하고 JSON으로 구조화해주세요:\n\n" *)
Definition summarize_request : str :=
  [45796; 51020; 32; 53080; 53584; 52768; 47484; 32; 48516; 49437; 54616;
   44256; 32; 74; 83; 79; 78; 51004; 47196; 32; 44396; 51312; 54868; 54644;
   51452; 49464; 50836; 58; 10; 10]%N.

(** The progress labels: "대기 중...", "자막 추출 중...", "번역 중...",
    "요약 중...", "저장 중..." *)
Definition step_waiting : str := [45824; 44592; 32; 51473; 46; 46; 46]%N.
Definition step_transcript : str :=
  [51088; 47561; 32; 52628; 52636; 32; 51473; 46; 46; 46]%N.
Definition step_translate : str := [48264; 50669; 32; 51473; 46; 46; 46]%N.
Definition step_summarize : str := [50836; 50557; 32; 51473; 46; 46; 46]%N.
Definition step_save : str := [51200; 51109; 32; 51473; 46; 46; 46]%N.

Definition job_not_found : str :=
  [51089; 50629; 51012; 32; 52286; 51012; 32; 49688; 32; 50630; 49845; 45768;
   45796; 46]%N.

(** [languages=['en', 'en-US', 'ko']] *)
Definition preferred_languages : list str := [lit "en"; lit "en-US"; lit "ko"].

(** [f"{video_id}.json"] and [f"{video_id}.html"], below [OUTPUT_DIR] *)
Definition json_path (video_id : str) : str := video_id ++ lit ".json".
Definition html_path (video_id : str) : str := video_id ++ lit ".html".

(** The [result] dictionary both files build. *)
Definition make_result (video_id original korean : str) (summary : Json.value)
    (processed_at : str) : Json.value :=
  Json.Obj
    [ (lit "video_id", Json.Str video_id);
      (lit "video_url", Json.Str (lit "https://www.youtube.com/watch?v=" ++ video_id));
      (lit "original_transcript", Json.Str original);
      (lit "korean_transcript", Json.Str korean);
      (lit "summary", summary);
      (lit "processed_at", Json.Str processed_at) ].

(** [v.get]: only a [dict] has the method. *)
Definition get_method (v : Json.value) : outcome (list (str * Json.value)) :=
  match v with
  | Json.Obj d => Ok d
  | _ =>
      Raise (Exn AttributeError
               (py_repr (type_name v) ++ lit " object has no attribute 'get'"))
  end.

(** [d.get(k, default)] *)
Definition get_default (k : str) (default : Json.value) (d : list (str * Json.value))
    : Json.value :=
  match Json.dict_get k d with
  | Some v => v
  | None => default
  end.

(** [for x in v]: the items of a list, the characters of a string, the keys
    of a dictionary. *)
Definition iterate (v : Json.value) : outcome (list Json.value) :=
  match v with
  | Json.Arr l => Ok l
  | Json.Str s => Ok (List.map (fun c => Json.Str [c]) s)
  | Json.Obj d => Ok (List.map (fun kv => Json.Str (fst kv)) d)
  | _ => Raise (Exn TypeError (py_repr (type_name v) ++ lit " object is not iterable"))
  end.

(** Each element in turn, stopping at the first exception. *)
Fixpoint for_each {A B} (f : A -> outcome B) (l : list A) : outcome (list B) :=
  match l with
  | [] => Ok []
  | x :: l' => let* y := f x in let* ys := for_each f l' in Ok (y :: ys)
  end.

Section Pipeline.
Context (sv : services).

Definition fetch (video_id : str) (languages : option (list str)) : M (list str) :=
  fun w => (emit (EFetch video_id languages) w, api_fetch sv video_id languages).

Definition create (max_tokens : N) (system user : str) : M (list str) :=
  fun w => (emit (ECreate max_tokens system user) w,
            messages_create sv max_tokens system user).

(** [response.content[0].text] *)
Definition first_text (content : list str) : outcome str :=
  match content with
  | t :: _ => Ok t
  | [] => Raise (Exn IndexError (lit "list index out of range"))
  end.

Definition extract_transcript (video_id : str) : M str :=
  let! transcript :=
    try_except (fetch video_id (Some preferred_languages))
               (fun _ => fetch video_id None) in
  ret (join (lit " ") transcript).

Definition translate (text : str) : M str :=
  let! content := create 8192 (translate_prompt sv) (translate_request ++ text) in
  lift (first_text content).

Definition summarize (korean_text : str) : M Json.value :=
  let! content := create 4096 (summarize_prompt sv) (summarize_request ++ korean_text) in
  let! result_text := lift (first_text content) in
  lift (Json.loads (strip_fence result_text)).

(** [generate_html]: the reads of [summary] that can raise, in the order
    the function performs them; the markup itself is [html_page]. *)
Definition generate_html (video_id korean : str) (summary : Json.value)
    : outcome str :=
  let* d := get_method summary in
  let* _ := iterate (get_default (lit "tags") (Json.Arr []) d) in
  let* points := iterate (get_default (lit "key_points") (Json.Arr []) d) in
  let* _ := for_each get_method points in
  let* quotes := iterate (get_default (lit "quotes") (Json.Arr []) d) in
  let* _ := for_each get_method quotes in
  let* _ := iterate (get_default (lit "action_items") (Json.Arr []) d) in
  let* _ := iterate (get_default (lit "related_topics") (Json.Arr []) d) in
  Ok (html_page sv video_id korean summary).

(** [if not api_key] *)
Definition api_key_missing : bool :=
  match getenv_api_key sv with
  | None | Some [] => true
  | Some (_ :: _) => false
  end.

(** *** [server.py] *)

(** The statements under [try:] in [process_video]. *)
Definition process_video_body (job_id url : str) : M unit :=
  let! _ := set_job job_id (Job.Status processing) in
  let! _ := (if api_key_missing
             then raise (Exn ValueError missing_key_message)
             else ret tt) in
  let! video_id := lift (extract_video_id url) in
  let! _ := set_job job_id (Job.VideoId video_id) in
  let! _ := set_job job_id (Job.Step step_transcript) in
  let! original := extract_transcript video_id in
  let! _ := set_job job_id (Job.Step step_translate) in
  let! korean := translate original in
  let! _ := set_job job_id (Job.Step step_summarize) in
  let! summary := summarize korean in
  let! _ := set_job job_id (Job.Step step_save) in
  let result := make_result video_id original korean summary (now_isoformat sv) in
  let! _ := write_file (json_path video_id) (Json.dumps result) in
  let! html_content := lift (generate_html video_id korean summary) in
  let! _ := write_file (html_path video_id) html_content in
  let! _ := set_job job_id (Job.Status completed) in
  let! _ := set_job job_id (Job.Result result) in
  set_job job_id (Job.HtmlPath (output_dir sv ++ lit "/" ++ html_path video_id)).

Definition process_video (job_id url : str) : M unit :=
  try_except (process_video_body job_id url)
    (fun e =>
       let! _ := set_job job_id (Job.Status failed) in
       set_job job_id (Job.Error (exn_str e))).

(** *** [agent.py] *)





(** *** The stages without the world

    What each stage yields, as a function of what the services answer. *)

Definition transcript_of (video_id : str) : outcome str :=
  match api_fetch sv video_id (Some preferred_languages) with
  | Ok fragments => Ok (join (lit " ") fragments)
  | Raise _ =>
      let* fragments := api_fetch sv video_id None in
      Ok (join (lit " ") fragments)
  end.

Definition translation_of (text : str) : outcome str :=
  let* content :=
    messages_create sv 8192 (translate_prompt sv) (translate_request ++ text) in
  first_text content.

Definition summary_of (korean_text : str) : outcome Json.value :=
  let* content :=
    messages_create sv 4096 (summarize_prompt sv) (summarize_request ++ korean_text) in
  let* result_text := first_text content in
  Json.loads (strip_fence result_text).

(** Extract, fetch, translate, summarise. *)
Definition stages (url : str) : outcome (str * str * str * Json.value) :=
  let* video_id := extract_video_id url in
  let* original := transcript_of video_id in
  let* korean := translation_of original in
  let* summary := summary_of korean in
  Ok (video_id, original, korean, summary).

(** The outbound calls of the four stages, in the order they are made. *)
Definition fetch_calls (video_id : str) : list event :=
  EFetch video_id (Some preferred_languages)
  :: match api_fetch sv video_id (Some preferred_languages) with
     | Ok _ => []
     | Raise _ => [EFetch video_id None]
     end.

Definition translate_call (original : str) : event :=
  ECreate 8192 (translate_prompt sv) (translate_request ++ original).

Definition summarize_call (korean : str) : event :=
  ECreate 4096 (summarize_prompt sv) (summarize_request ++ korean).

Definition stage_calls (url : str) : list event :=
  match extract_video_id url with
  | Raise _ => []
  | Ok video_id =>
      fetch_calls video_id
      ++ match transcript_of video_id with
         | Raise _ => []
         | Ok original =>
             translate_call original
             :: match translation_of original with
                | Raise _ => []
                | Ok korean => [summarize_call korean]
                end
         end
  end.
End Pipeline.

(** ** The service surface of [server.py] *)

(** [width] hexadecimal digits of [n], most significant first. *)
Fixpoint hex_fixed (width : nat) (n : N) : str :=
  match width with
  | O => []
  | S w => hex_fixed w (n / 16)%N ++ [Json.hex_digit (n mod 16)%N]
  end.

(** [str(u)] for a UUID given by its 128-bit integer: the grouping
    8-4-4-4-12 of its 32 hexadecimal digits. *)
Definition uuid_str (u : N) : str :=
  let h := hex_fixed 32 u in
  take 8 h ++ lit "-" ++ take 4 (drop 8 h) ++ lit "-" ++ take 4 (drop 12 h)
  ++ lit "-" ++ take 4 (drop 16 h) ++ lit "-" ++ drop 20 h.

Definition fresh_job : Job.t :=
  Job.Make pending None step_waiting None None None.

(** [start_translation]; [u] is what [uuid.uuid4()] returns. *)
Definition start_translation (u : N) (url : str) : M str :=
  let job_id := take 8 (uuid_str u) in
  let! _ := put_job job_id fresh_job in
  let! _ := add_task job_id url in
  ret job_id.

Definition get_status (job_id : str) : M Job.t :=
  fun w =>
    match jobs w !! job_id with
    | None => (w, Raise (Exn HTTPException job_not_found))
    | Some j => (w, Ok j)
    end.


(** The entry [list_results] appends for one document. *)
Definition project (data : Json.value) : outcome Json.value :=
  let* d := get_method data in
  let video_id := get_default (lit "video_id") Json.Null d in
  let* s1 := get_method (get_default (lit "summary") (Json.Obj []) d) in
  let one_liner := get_default (lit "one_liner") (Json.Str []) s1 in
  let* s2 := get_method (get_default (lit "summary") (Json.Obj []) d) in
  let tags := get_default (lit "tags") (Json.Arr []) s2 in
  let processed_at := get_default (lit "processed_at") Json.Null d in
  Ok (Json.Obj [ (lit "video_id", video_id); (lit "one_liner", one_liner);
                 (lit "tags", tags); (lit "processed_at", processed_at) ]).

(** [x.get("processed_at", "")] *)
Definition processed_at_key (x : Json.value) : Json.value :=
  match x with
  | Json.Obj d => get_default (lit "processed_at") (Json.Str []) d
  | _ => Json.Null
  end.

Definition read_file (path : str) : M str :=
  fun w =>
    match files w !! path with
    | Some content => (w, Ok content)
    | None => (w, Raise (Exn OSError (lit "No such file or directory: " ++ py_repr path)))
    end.

(** The loop of [list_results] over the paths still to visit. *)
Fixpoint load_all (paths : list str) : M (list Json.value) :=
  match paths with
  | [] => ret []
  | path :: rest =>
      let! content := read_file path in
      let! data := lift (Json.loads content) in
      let! entry := lift (project data) in
      let! entries := load_all rest in
      ret (entry :: entries)
  end.

(** [list_results]; [listing] is what [OUTPUT_DIR.glob("*.json")] yields, in
    the order the directory gives. *)
Definition list_results (listing : list str) : M (list Json.value) :=
  let! results := load_all listing in
  lift (sorted_desc processed_at_key results).

(** ** Observations *)

(** The outbound calls in a log. *)
Definition is_call (e : event) : bool :=
  match e with
  | EFetch _ _ | ECreate _ _ _ => true
  | _ => false
  end.

(** The file writes in a log. *)
Definition is_file_write (e : event) : bool :=
  match e with
  | EFile _ _ => true
  | _ => false
  end.

(** The successive states of one registry entry a log records: what a poll
    of [job_id] can return, in order. *)
Fixpoint snapshots (job_id : str) (l : list event) : list Job.t :=
  match l with
  | [] => []
  | EPut id j :: l' | ESet id _ j :: l' =>
      if decide (id = job_id) then j :: snapshots job_id l' else snapshots job_id l'
  | _ :: l' => snapshots job_id l'
  end.

(** The assignments to the [status] key of one entry, in order. *)
Fixpoint status_writes (job_id : str) (l : list event) : list job_status :=
  match l with
  | [] => []
  | ESet id (Job.Status x) _ :: l' =>
      if decide (id = job_id) then x :: status_writes job_id l'
      else status_writes job_id l'
  | _ :: l' => status_writes job_id l'
  end.

Definition terminal (x : job_status) : bool :=
  match x with
  | completed | failed => true
  | pending | processing => false
  end.

(** What one logged effect does to the world. *)
Definition apply_event (e : event) (w : world) : world :=
  match e with
  | EPut job_id j | ESet job_id _ j =>
      World (<[job_id := j]> (jobs w)) (files w) (log w ++ [e])
  | EFile path content =>
      World (jobs w) (<[path := content]> (files w)) (log w ++ [e])
  | EFetch _ _ | ECreate _ _ _ | ETask _ _ => emit e w
  end.

Definition replay (l : list event) (w : world) : world :=
  fold_left (fun w e => apply_event e w) l w.

(** ** The effects of [process_video], as a list

    The events the body under [try:] performs on an entry that reads [j]
    when the task starts, and how the body ends, both as functions of what
    the services answer.  [process_video_body_run] below shows that the code
    performs exactly these. *)
Section Trace.
Context (sv : services) (job_id url : str) (j : Job.t).

Definition persist_events (video_id original korean : str)
    (summary : Json.value) (j6 : Job.t) : list event :=
  let result := make_result video_id original korean summary (now_isoformat sv) in
  EFile (json_path video_id) (Json.dumps result)
  :: match generate_html sv video_id korean summary with
     | Raise _ => []
     | Ok html_content =>
         let j7 := Job.assign (Job.Status completed) j6 in
         let j8 := Job.assign (Job.Result result) j7 in
         let path := output_dir sv ++ lit "/" ++ html_path video_id in
         [ EFile (html_path video_id) html_content;
           ESet job_id (Job.Status completed) j7;
           ESet job_id (Job.Result result) j8;
           ESet job_id (Job.HtmlPath path) (Job.assign (Job.HtmlPath path) j8) ]
     end.

Definition body_events : list event :=
  let j1 := Job.assign (Job.Status processing) j in
  ESet job_id (Job.Status processing) j1
  :: if api_key_missing sv then []
     else
       match extract_video_id url with
       | Raise _ => []
       | Ok video_id =>
           let j2 := Job.assign (Job.VideoId video_id) j1 in
           let j3 := Job.assign (Job.Step step_transcript) j2 in
           ESet job_id (Job.VideoId video_id) j2
           :: ESet job_id (Job.Step step_transcript) j3
           :: fetch_calls sv video_id
           ++ match transcript_of sv video_id with
              | Raise _ => []
              | Ok original =>
                  let j4 := Job.assign (Job.Step step_translate) j3 in
                  ESet job_id (Job.Step step_translate) j4
                  :: translate_call sv original
                  :: match translation_of sv original with
                     | Raise _ => []
                     | Ok korean =>
                         let j5 := Job.assign (Job.Step step_summarize) j4 in
                         ESet job_id (Job.Step step_summarize) j5
                         :: summarize_call sv korean
                         :: match summary_of sv korean with
                            | Raise _ => []
                            | Ok summary =>
                                let j6 := Job.assign (Job.Step step_save) j5 in
                                ESet job_id (Job.Step step_save) j6
                                :: persist_events video_id original korean summary j6
                            end
                     end
              end
       end.

Definition body_outcome : outcome unit :=
  if api_key_missing sv then Raise (Exn ValueError missing_key_message)
  else
    let* r := stages sv url in
    let '(video_id, original, korean, summary) := r in
    let* _ := generate_html sv video_id korean summary in
    Ok tt.

(** The entry as the body leaves it. *)
Definition body_last : Job.t := List.last (snapshots job_id body_events) j.

(** The two assignments of the [except] clause. *)
Definition handler_events (e : exn) : list event :=
  let jf := Job.assign (Job.Status failed) body_last in
  [ ESet job_id (Job.Status failed) jf;
    ESet job_id (Job.Error (exn_str e)) (Job.assign (Job.Error (exn_str e)) jf) ].

Definition process_video_events : list event :=
  body_events
  ++ match body_outcome with
     | Ok _ => []
     | Raise e => handler_events e
     end.
End Trace.

(** ** The listing, without the world *)

(** What the loop of [list_results] makes of one path: the projection of
    the document there, or the exception that reading, decoding or
    projecting it raises. *)
Definition entry_at (fs : gmap str str) (path : str) : outcome Json.value :=
  match fs !! path with
  | Some content => let* data := Json.loads content in project data
  | None => Raise (Exn OSError (lit "No such file or directory: " ++ py_repr path))
  end.

(** [a] does not sort after [b]: both keys are strings and the key of [a]
    is not smaller. *)
Definition not_older {A} (key : A -> Json.value) (a b : A) : Prop :=
  ∃ ta tb, key a = Json.Str ta ∧ key b = Json.Str tb ∧ str_ltb ta tb = false.

(** ** Stub services, for concrete runs *)

Definition stub (transcript : option (list str) -> outcome (list str))
    (answer : N -> outcome (list str)) : services :=
  Services (Some (lit "sk-test"))
    (fun _ languages => transcript languages)
    (fun max_tokens _ _ => answer max_tokens)
    (lit "2024-05-01T12:00:00")
    (lit "translate") (lit "summarize")
    (fun _ _ _ => lit "<html></html>")
    (lit "output").

(** ** The page view *)


(** The entries of a listing whose timestamp is [t], in order. *)
Definition stamped (t : str) (l : list Json.value) : list Json.value :=
  List.filter (fun x => match processed_at_key x with
                        | Json.Str s => bool_decide (s = t)
                        | _ => false
                        end) l.

(** [[0-9a-f]] *)
Definition is_hex_char (c : N) : bool :=
  (((48 <=? c) && (c <=? 57)) || ((97 <=? c) && (c <=? 102)))%N.

(* ===================================================================== *)
(** * Properties *)
(* ===================================================================== *)

Example extract_short_link :
  extract_video_id (lit "https://youtu.be/dQw4w9WgXcQ") = Ok (lit "dQw4w9WgXcQ").
Proof. vm_compute. reflexivity. Qed.

Example extract_watch_link :
  extract_video_id (lit "https://www.youtube.com/watch?v=dQw4w9WgXcQ&t=10")
  = Ok (lit "dQw4w9WgXcQ").
Proof. vm_compute. reflexivity. Qed.

Example extract_bare :
  extract_video_id (lit "dQw4w9WgXcQ") = Ok (lit "dQw4w9WgXcQ").
Proof. vm_compute. reflexivity. Qed.

(** ** Strings *)

Lemma strip_prefix_app (p s : str) : strip_prefix p (p ++ s) = Some s.
Proof.
  induction p as [|a p IH]; simpl; [done|].
  by rewrite N.eqb_refl.
Qed.

Lemma strip_prefix_Some (p s r : str) :
  strip_prefix p s = Some r → s = p ++ r.
Proof.
  revert s. induction p as [|a p IH]; intros s; simpl.
  - congruence.
  - destruct s as [|b s]; [done|].
    destruct (N.eqb_spec a b) as [->|]; [|done].
    intros H. by rewrite (IH _ H).
Qed.

(** ** The matcher on the constructs of the source patterns *)

Lemma rep_app {A} n p (t s : str) i g (k : Re.mstate → option A) :
  length t = n → forallb p t = true →
  Re.rep n p i (t ++ s) g k = k (Re.MState (i + n) s g).
Proof.
  revert t i. induction n as [|n IH]; intros t i Hlen Hall.
  - destruct t; [|done]. simpl. by rewrite Nat.add_0_r.
  - destruct t as [|c t]; [done|]. simpl in *.
    apply andb_prop in Hall as [-> Hall].
    rewrite IH by (done || lia). f_equal. f_equal. lia.
Qed.

Lemma rep_Some {A} n p (s : str) i g (k : Re.mstate → option A) a :
  Re.rep n p i s g k = Some a →
  ∃ t s', s = t ++ s' ∧ length t = n ∧ forallb p t = true
          ∧ k (Re.MState (i + n) s' g) = Some a.
Proof.
  revert s i. induction n as [|n IH]; intros s i; simpl.
  - intros H. exists [], s. by rewrite Nat.add_0_r.
  - destruct s as [|c s]; [done|].
    destruct (p c) eqn:Hc; [|done].
    intros (t & s' & -> & Hlen & Hall & Hk)%IH.
    exists (c :: t), s'. simpl. rewrite Hc, Hall.
    repeat split; [by f_equal|]. by replace (i + S n) with (S i + n) by lia.
Qed.

Lemma is_token_spec t :
  is_token t = true ↔ length t = 11 ∧ forallb is_id_char t = true.
Proof.
  unfold is_token. rewrite andb_true_iff, Nat.eqb_eq. done.
Qed.

Lemma patterns_eq : patterns = [url_pattern; bare_pattern].
Proof. reflexivity. Qed.

(** The group over eleven identifier characters. *)
Lemma group_rep_app {A} i (tok post : str) g (k : Re.mstate → option A) :
  is_token tok = true →
  Re.rmatch (Re.Group (Re.Rep 11 is_id_char)) (Re.MState i (tok ++ post) g) k
  = k (Re.MState (i + 11) post (Some tok)).
Proof.
  intros [Hlen Hall]%is_token_spec. cbn [Re.rmatch Re.pos Re.rest Re.group1].
  rewrite rep_app by done. cbn [Re.pos Re.rest].
  replace (i + 11 - i) with 11 by lia.
  by rewrite <-Hlen, take_app_length.
Qed.

Lemma group_rep_Some {A} i (s : str) g (k : Re.mstate → option A) a :
  Re.rmatch (Re.Group (Re.Rep 11 is_id_char)) (Re.MState i s g) k = Some a →
  ∃ tok post, s = tok ++ post ∧ is_token tok = true
              ∧ k (Re.MState (i + 11) post (Some tok)) = Some a.
Proof.
  cbn [Re.rmatch Re.pos Re.rest Re.group1].
  intros (t & s' & -> & Hlen & Hall & Hk)%rep_Some.
  exists t, s'. cbn [Re.pos Re.rest] in Hk.
  replace (i + 11 - i) with 11 in Hk by lia.
  rewrite <-Hlen, take_app_length in Hk.
  split; [done|]. split; [by apply is_token_spec|]. by rewrite Hlen in Hk.
Qed.

Lemma marker_alt_at {A} i (s : str) g (k : Re.mstate → option A) :
  Re.rmatch marker_alt (Re.MState i s g) k =
  match strip_prefix (lit "v=") s with
  | Some s' => k (Re.MState (i + 2) s' g)
  | None =>
      match strip_prefix (lit "/v/") s with
      | Some s' => k (Re.MState (i + 3) s' g)
      | None =>
          match strip_prefix (lit "youtu.be/") s with
          | Some s' => k (Re.MState (i + 9) s' g)
          | None => None
          end
      end
  end.
Proof.
  unfold marker_alt. cbn [Re.rmatch Re.pos Re.rest Re.group1].
  destruct (strip_prefix (lit "v=") s) as [s1|] eqn:H1.
  - apply strip_prefix_Some in H1 as ->.
    change (length (lit "v=")) with 2.
    destruct (k _); [done|]. reflexivity.
  - destruct (strip_prefix (lit "/v/") s) as [s2|] eqn:H2.
    + apply strip_prefix_Some in H2 as ->.
      change (length (lit "/v/")) with 3.
      destruct (k _); [done|]. reflexivity.
    + reflexivity.
Qed.

Lemma url_pattern_at i (s : str) :
  Re.match_at url_pattern i s =
  match strip_prefix (lit "v=") s with
  | Some s' => Re.rmatch (Re.Group (Re.Rep 11 is_id_char)) (Re.MState (i + 2) s' None) Some
  | None =>
      match strip_prefix (lit "/v/") s with
      | Some s' => Re.rmatch (Re.Group (Re.Rep 11 is_id_char)) (Re.MState (i + 3) s' None) Some
      | None =>
          match strip_prefix (lit "youtu.be/") s with
          | Some s' => Re.rmatch (Re.Group (Re.Rep 11 is_id_char)) (Re.MState (i + 9) s' None) Some
          | None => None
          end
      end
  end.
Proof.
  unfold Re.match_at, url_pattern. fold marker_alt.
  change (Re.rmatch (Re.Cat marker_alt ?r) ?st ?k)
    with (Re.rmatch marker_alt st (λ st', Re.rmatch r st' k)).
  apply marker_alt_at.
Qed.

Lemma url_pattern_at_app i (mark tok post : str) :
  In mark markers → is_token tok = true →
  Re.match_at url_pattern i (mark ++ tok ++ post)
  = Some (Re.MState (i + length mark + 11) post (Some tok)).
Proof.
  intros Hm Htok. rewrite url_pattern_at.
  destruct Hm as [<-|[<-|[<-|[]]]].
  - rewrite strip_prefix_app. by rewrite group_rep_app.
  - change (strip_prefix (lit "v=") _) with (@None str).
    rewrite strip_prefix_app. by rewrite group_rep_app.
  - change (strip_prefix (lit "v=") _) with (@None str).
    change (strip_prefix (lit "/v/") _) with (@None str).
    rewrite strip_prefix_app. by rewrite group_rep_app.
Qed.

Lemma url_pattern_at_Some i (s : str) m :
  Re.match_at url_pattern i s = Some m →
  ∃ mark tok post, In mark markers ∧ is_token tok = true
    ∧ s = mark ++ tok ++ post
    ∧ m = Re.MState (i + length mark + 11) post (Some tok).
Proof.
  rewrite url_pattern_at.
  destruct (strip_prefix (lit "v=") s) as [s1|] eqn:H1.
  { apply strip_prefix_Some in H1 as ->.
    intros (tok & post & -> & Htok & [= <-])%group_rep_Some.
    exists (lit "v="), tok, post. unfold markers. simpl In. eauto 10. }
  destruct (strip_prefix (lit "/v/") s) as [s2|] eqn:H2.
  { apply strip_prefix_Some in H2 as ->.
    intros (tok & post & -> & Htok & [= <-])%group_rep_Some.
    exists (lit "/v/"), tok, post. unfold markers. simpl In. eauto 10. }
  destruct (strip_prefix (lit "youtu.be/") s) as [s3|] eqn:H3; [|done].
  apply strip_prefix_Some in H3 as ->.
  intros (tok & post & -> & Htok & [= <-])%group_rep_Some.
  exists (lit "youtu.be/"), tok, post. unfold markers. simpl In. eauto 10.
Qed.

(** ** [re.search] *)

Lemma search_from_None r i (s : str) :
  Re.search_from r i s = None ↔
  ∀ pre s', s = pre ++ s' → Re.match_at r (i + length pre) s' = None.
Proof.
  revert i. induction s as [|c s IH]; intros i; simpl.
  - destruct (Re.match_at r i []) eqn:Hm.
    + split; [done|]. intros H. specialize (H [] [] eq_refl).
      simpl in H. rewrite Nat.add_0_r in H. congruence.
    + split; [|done]. intros _ pre s' Hs.
      symmetry in Hs. apply app_eq_nil in Hs as [-> ->].
      simpl. by rewrite Nat.add_0_r.
  - destruct (Re.match_at r i (c :: s)) eqn:Hm.
    + split; [done|]. intros H. specialize (H [] (c :: s) eq_refl).
      simpl in H. rewrite Nat.add_0_r in H. congruence.
    + rewrite IH. split.
      * intros H [|d pre] s' Hs; simpl in *.
        -- subst s'. by rewrite Nat.add_0_r.
        -- injection Hs as -> ->.
           replace (i + S (length pre)) with (S i + length pre) by lia. eauto.
      * intros H pre s' ->.
        replace (S i + length pre) with (i + length (c :: pre)) by (simpl; lia).
        by apply H.
Qed.

Lemma search_from_app r i (pre s : str) m :
  (∀ p1 p2, pre = p1 ++ p2 → p2 ≠ [] →
            Re.match_at r (i + length p1) (p2 ++ s) = None) →
  Re.match_at r (i + length pre) s = Some m →
  Re.search_from r i (pre ++ s) = Some m.
Proof.
  revert i. induction pre as [|c pre IH]; intros i Hno Hm.
  - simpl in *. rewrite Nat.add_0_r in Hm.
    destruct s; simpl; by rewrite Hm.
  - simpl. specialize (Hno [] (c :: pre) eq_refl) as H0.
    simpl in H0. rewrite Nat.add_0_r in H0. rewrite H0 by done.
    apply IH.
    + intros p1 p2 -> Hp2.
      replace (S i + length p1) with (i + length (c :: p1)) by (simpl; lia).
      by apply Hno.
    + by replace (S i + length pre) with (i + length (c :: pre)) by (simpl; lia).
Qed.

Lemma search_from_Some r i (s : str) m :
  Re.search_from r i s = Some m →
  ∃ pre s', s = pre ++ s' ∧ Re.match_at r (i + length pre) s' = Some m.
Proof.
  revert i. induction s as [|c s IH]; intros i; simpl.
  - destruct (Re.match_at r i []) eqn:Hm; [|done].
    intros [= <-]. exists [], []. simpl. by rewrite Nat.add_0_r.
  - destruct (Re.match_at r i (c :: s)) eqn:Hm.
    + intros [= <-]. exists [], (c :: s). simpl. by rewrite Nat.add_0_r.
    + intros (pre & s' & -> & H)%IH. exists (c :: pre), s'. simpl.
      split; [done|]. by replace (i + S (length pre)) with (S i + length pre) by lia.
Qed.

(** ** The bare-token pattern *)

Lemma bare_pattern_at i (s : str) :
  Re.match_at bare_pattern i s =
  if Nat.eqb i 0 then
    Re.rmatch (Re.Group (Re.Rep 11 is_id_char)) (Re.MState i s None)
      (λ st, Re.rmatch Re.Eol st Some)
  else None.
Proof. reflexivity. Qed.

Lemma bare_pattern_pos i (s : str) :
  i ≠ 0 → Re.search_from bare_pattern i s = None.
Proof.
  intros Hi. apply search_from_None. intros pre s' _.
  rewrite bare_pattern_at.
  destruct (Nat.eqb_spec (i + length pre) 0); [lia|done].
Qed.

Lemma search_bare (s : str) :
  Re.search bare_pattern s = Re.match_at bare_pattern 0 s.
Proof.
  unfold Re.search. destruct s as [|c s]; cbn [Re.search_from].
  - by destruct (Re.match_at bare_pattern 0 []).
  - destruct (Re.match_at bare_pattern 0 (c :: s)); [done|].
    by apply bare_pattern_pos.
Qed.

Lemma bare_pattern_token (tok : str) :
  is_token tok = true →
  Re.match_at bare_pattern 0 tok = Some (Re.MState 11 [] (Some tok))
  ∧ Re.match_at bare_pattern 0 (tok ++ [10%N]) = Some (Re.MState 11 [10%N] (Some tok)).
Proof.
  intros Htok. rewrite !bare_pattern_at. cbn [Nat.eqb]. split.
  - pose proof (group_rep_app 0 tok [] None (λ st, Re.rmatch Re.Eol st Some) Htok) as H.
    rewrite app_nil_r in H. by rewrite H.
  - by rewrite group_rep_app.
Qed.

Lemma eol_Some {A} st (k : Re.mstate → option A) a :
  Re.rmatch Re.Eol st k = Some a →
  (Re.rest st = [] ∨ Re.rest st = [10%N]) ∧ k st = Some a.
Proof.
  cbn [Re.rmatch]. destruct (Re.rest st) as [|c l]; [by auto|].
  destruct (N.eqb_spec c 10) as [->|Hc].
  - destruct l; [by auto|done].
  - destruct c as [|p]; [done|].
    do 4 (destruct p as [p|p|]; try done).
Qed.

Lemma bare_pattern_Some (s : str) m :
  Re.match_at bare_pattern 0 s = Some m →
  ∃ tok, is_token tok = true ∧ (s = tok ∨ s = tok ++ [10%N])
         ∧ Re.group1 m = Some tok.
Proof.
  rewrite bare_pattern_at. cbn [Nat.eqb].
  intros (t & s' & -> & Htok & Hk)%group_rep_Some.
  apply eol_Some in Hk as [Hrest [= <-]]. cbn [Re.rest] in Hrest.
  exists t. split; [done|]. split; [|done].
  destruct Hrest as [-> | ->]; [rewrite app_nil_r|]; auto.
Qed.

(** ** Identifier extraction *)

Lemma marked_at_length (s : str) n tok : marked_at s n tok → n + 13 ≤ length s.
Proof.
  intros (pre & mark & post & -> & <- & Hm & [Hlen _]%is_token_spec).
  rewrite !length_app, Hlen.
  destruct Hm as [<-|[<-|[<-|[]]]]; simpl; lia.
Qed.

Lemma search_url_None (s : str) :
  (∀ n tok, ¬ marked_at s n tok) → Re.search url_pattern s = None.
Proof.
  intros Hno. apply search_from_None. intros pre s' ->.
  destruct (Re.match_at url_pattern _ s') as [m|] eqn:Hm; [|done].
  apply url_pattern_at_Some in Hm as (mark & tok & post & ? & ? & -> & _).
  destruct (Hno (length pre) tok). by exists pre, mark, post.
Qed.

Lemma search_url_leftmost (s : str) n tok :
  marked_at s n tok → (∀ n' tok', marked_at s n' tok' → n ≤ n') →
  ∃ m, Re.search url_pattern s = Some m ∧ Re.group1 m = Some tok.
Proof.
  intros (pre & mark & post & -> & <- & Hm & Htok) Hleft.
  eexists. split.
  - apply search_from_app; [|by apply url_pattern_at_app].
    intros p1 p2 -> Hp2.
    destruct (Re.match_at url_pattern _ _) as [m|] eqn:Hmatch; [|done].
    apply url_pattern_at_Some in Hmatch as (mark' & tok' & post' & ? & ? & Heq & _).
    assert (marked_at ((p1 ++ p2) ++ mark ++ tok ++ post) (length p1) tok') as Hm'.
    { exists p1, mark', post'. by rewrite <-Heq, <-app_assoc. }
    apply Hleft in Hm'. rewrite length_app in Hm'.
    destruct p2; [done|simpl in Hm'; lia].
  - done.
Qed.

(** C3, as the code has it: the identifier is the eleven characters after
    the leftmost marker ([v=], [/v/] or [youtu.be/]) that is followed by
    eleven identifier characters; failing that, a string that is exactly an
    eleven-character token, optionally followed by one line feed, yields the
    token; every other string raises [ValueError].  No trimming is done. *)
Theorem extract_video_id_spec :
  (∀ (s : str) n tok,
      marked_at s n tok → (∀ n' tok', marked_at s n' tok' → n ≤ n') →
      extract_video_id s = Ok tok)
  ∧ (∀ tok : str, is_token tok = true →
      extract_video_id tok = Ok tok ∧ extract_video_id (tok ++ [10%N]) = Ok tok)
  ∧ (∀ s : str,
      (∀ n tok, ¬ marked_at s n tok) →
      (∀ tok, is_token tok = true → s ≠ tok ∧ s ≠ tok ++ [10%N]) →
      extract_video_id s = Raise (Exn ValueError (invalid_url_prefix ++ s))).
Proof.
  unfold extract_video_id. rewrite patterns_eq. cbn [first_match].
  split; [|split].
  - intros s n tok Hm Hleft.
    destruct (search_url_leftmost s n tok Hm Hleft) as (m & -> & ->). done.
  - intros tok Htok.
    assert (∀ s n t, length s < 13 → ¬ marked_at s n t) as Hshort.
    { intros s n t Hlen Hm%marked_at_length. lia. }
    apply is_token_spec in Htok as Htok'. destruct Htok' as [Hlen _].
    rewrite !search_url_None, !search_bare.
    + destruct (bare_pattern_token tok Htok) as [-> ->]. done.
    + intros n t. apply Hshort. rewrite length_app, Hlen. simpl. lia.
    + intros n t. apply Hshort. lia.
  - intros s Hno Hbare. rewrite search_url_None, search_bare by done.
    destruct (Re.match_at bare_pattern 0 s) as [m|] eqn:Hm; [|done].
    apply bare_pattern_Some in Hm as (tok & Htok & Hs & _).
    destruct (Hbare tok Htok) as [H1 H2]. by destruct Hs.
Qed.

Lemma extract_video_id_spec_witness :
  extract_video_id (lit "v=dQw4w9WgXcQ") = Ok (lit "dQw4w9WgXcQ")
  ∧ extract_video_id (lit "dQw4w9WgXcQ") = Ok (lit "dQw4w9WgXcQ")
  ∧ extract_video_id (lit "hello")
    = Raise (Exn ValueError (invalid_url_prefix ++ lit "hello")).
Proof.
  destruct extract_video_id_spec as (Hurl & Hbare & Hfail).
  split; [|split].
  - apply (Hurl _ 0).
    + exists [], (lit "v="), [].
      split; [reflexivity|]. split; [reflexivity|].
      split; [simpl; auto|reflexivity].
    + intros; lia.
  - apply Hbare. reflexivity.
  - apply Hfail.
    + intros n tok Hm%marked_at_length. simpl in Hm. lia.
    + intros tok [Hlen _]%is_token_spec.
      split; intros H%(f_equal length); rewrite ?length_app in H; simpl in H; lia.
Defined.

(** C3 as stated fails: a token with surrounding white space is rejected,
    because the code does not trim its input. *)
Lemma extract_video_id_no_trim :
  ¬ (∀ s : str, is_token (strip s) = true → extract_video_id s = Ok (strip s)).
Proof.
  intros H. specialize (H (lit " dQw4w9WgXcQ") eq_refl).
  vm_compute in H. discriminate H.
Qed.


(** ** White space and [strip] *)

Lemma forallb_rev {A} (p : A → bool) (l : list A) :
  forallb p (rev l) = forallb p l.
Proof.
  induction l as [|x l IH]; simpl; [done|].
  rewrite forallb_app, IH. simpl. rewrite andb_true_r. apply andb_comm.
Qed.

Lemma lstrip_spaces (ws s : str) :
  forallb is_space ws = true → lstrip (ws ++ s) = lstrip s.
Proof.
  induction ws as [|c ws IH]; simpl; [done|].
  intros [-> H]%andb_prop. auto.
Qed.

Lemma lstrip_fixed_cons (c : N) (s : str) :
  lstrip (c :: s) = c :: s → is_space c = false.
Proof.
  simpl. destruct (is_space c); [|done].
  intros H. assert (length (lstrip s) ≤ length s) as Hle.
  { clear. induction s as [|d s IH]; simpl; [done|]. destruct (is_space d); simpl; lia. }
  rewrite H in Hle. simpl in Hle. lia.
Qed.

Lemma lstrip_length (s : str) : length (lstrip s) ≤ length s.
Proof.
  induction s as [|d s IH]; simpl; [done|]. destruct (is_space d); simpl; lia.
Qed.

Lemma lstrip_same_length (s : str) : length (lstrip s) = length s → lstrip s = s.
Proof.
  destruct s as [|c s]; simpl; [done|].
  destruct (is_space c); [|done].
  pose proof (lstrip_length s). simpl. lia.
Qed.

Lemma rstrip_length (s : str) : length (rstrip s) ≤ length s.
Proof.
  unfold rstrip. rewrite length_rev, <-(length_rev s). apply lstrip_length.
Qed.

Lemma strip_fixed (q : str) : strip q = q → lstrip q = q ∧ rstrip q = q.
Proof.
  unfold strip. intros H.
  assert (lstrip q = q) as Hl.
  { apply lstrip_same_length. pose proof (lstrip_length q).
    pose proof (rstrip_length (lstrip q)). rewrite H in *. lia. }
  by rewrite Hl in H.
Qed.

Lemma rstrip_fixed_snoc (s : str) (c : N) :
  rstrip (s ++ [c]) = s ++ [c] → is_space c = false.
Proof.
  unfold rstrip. rewrite rev_app_distr. simpl rev at 2. simpl app.
  intros H. apply (f_equal (@rev N)) in H.
  rewrite rev_involutive, rev_app_distr in H. simpl in H.
  by apply lstrip_fixed_cons in H.
Qed.

Lemma rstrip_spaces (s ws : str) :
  forallb is_space ws = true → rstrip (s ++ ws) = rstrip s.
Proof.
  intros H. unfold rstrip. rewrite rev_app_distr, lstrip_spaces; [done|].
  by rewrite forallb_rev.
Qed.

(** Stripping a text that is white space around a body with no white space
    at either end gives the body. *)
Lemma strip_around (ws1 body ws2 : str) :
  forallb is_space ws1 = true → forallb is_space ws2 = true →
  strip body = body → strip (ws1 ++ body ++ ws2) = body.
Proof.
  intros H1 H2 [Hl Hr]%strip_fixed. unfold strip.
  rewrite lstrip_spaces by done.
  destruct body as [|c body].
  - assert (∀ ws, forallb is_space ws = true → lstrip ws = []) as Hall.
    { clear. induction ws as [|c ws IH]; simpl; [done|].
      intros [-> H]%andb_prop. auto. }
    simpl. by rewrite Hall.
  - pose proof (lstrip_fixed_cons _ _ Hl) as Hc.
    change ((c :: body) ++ ws2) with (c :: (body ++ ws2)).
    cbn [lstrip]. rewrite Hc.
    change (c :: body ++ ws2) with ((c :: body) ++ ws2).
    by rewrite rstrip_spaces.
Qed.

(** ** The greedy star and [re.sub] *)

Lemma star_Some {A} p i (s : str) g (k : Re.mstate → option A) a :
  Re.star p i s g k = Some a →
  ∃ w s', s = w ++ s' ∧ forallb p w = true
          ∧ k (Re.MState (i + length w) s' g) = Some a.
Proof.
  revert i. induction s as [|c s IH]; intros i; simpl.
  - intros H. exists [], []. simpl. by rewrite Nat.add_0_r.
  - destruct (p c) eqn:Hc.
    + destruct (Re.star p (S i) s g k) as [a'|] eqn:Hs.
      * intros [= ->]. apply IH in Hs as (w & s' & -> & Hw & Hk).
        exists (c :: w), s'. simpl. rewrite Hc, Hw.
        by replace (i + S (length w)) with (S i + length w) by lia.
      * intros H. exists [], (c :: s). simpl. by rewrite Nat.add_0_r.
    + intros H. exists [], (c :: s). simpl. by rewrite Nat.add_0_r.
Qed.

(** When the continuation accepts after the longest run, that is the match. *)
Lemma star_longest {A} p i (ws s : str) g (k : Re.mstate → option A) a :
  forallb p ws = true → head (List.map p s) ≠ Some true →
  k (Re.MState (i + length ws) s g) = Some a →
  Re.star p i (ws ++ s) g k = Some a.
Proof.
  revert i. induction ws as [|c ws IH]; intros i Hws Hs Hk; simpl in *.
  - rewrite Nat.add_0_r in Hk.
    destruct s as [|c s]; simpl in *; [done|].
    destruct (p c); [done|done].
  - apply andb_prop in Hws as [-> Hws].
    rewrite (IH (S i)); [done|done|done|].
    by replace (S i + length ws) with (i + S (length ws)) by lia.
Qed.

Lemma sub_from_skip r (a b : str) f i :
  (∀ a1 a2, a = a1 ++ a2 → a2 ≠ [] →
            Re.match_at r (i + length a1) (a2 ++ b) = None) →
  Re.sub_from (length a + f) r i (a ++ b) = a ++ Re.sub_from f r (i + length a) b.
Proof.
  revert i. induction a as [|c a IH]; intros i Hno.
  - simpl. by rewrite Nat.add_0_r.
  - cbn [length Nat.add app Re.sub_from].
    specialize (Hno [] (c :: a) eq_refl) as H0. simpl in H0.
    rewrite Nat.add_0_r in H0. rewrite H0 by done.
    rewrite IH.
    + by replace (S i + length a) with (i + S (length a)) by lia.
    + intros a1 a2 -> Ha2.
      replace (S i + length a1) with (i + length (c :: a1)) by (simpl; lia).
      by apply Hno.
Qed.

(** ** The fence pattern *)

Lemma fence_pattern_at i (s : str) :
  Re.match_at fence_pattern i s =
  match (if Nat.eqb i 0 then
           match strip_prefix fence_open s with
           | Some s' => Re.star is_space (i + 7) s' None Some
           | None => None
           end
         else None) with
  | Some m => Some m
  | None => Re.match_at fence_tail i s
  end.
Proof. reflexivity. Qed.

Lemma fence_tail_Some i (s : str) m :
  Re.match_at fence_tail i s = Some m →
  ∃ w r, s = w ++ fence_close ++ r ∧ forallb is_space w = true
         ∧ (r = [] ∨ r = [10%N]) ∧ m = Re.MState (i + length w + 3) r None.
Proof.
  unfold Re.match_at, fence_tail. cbn [Re.rmatch Re.pos Re.rest Re.group1].
  intros (w & s' & -> & Hw & Hk)%star_Some.
  cbn [Re.rmatch Re.pos Re.rest Re.group1] in Hk.
  destruct (strip_prefix fence_close s') as [r|] eqn:Hp; [|done].
  apply strip_prefix_Some in Hp as ->.
  apply (eol_Some (Re.MState _ r None) Some) in Hk as [Hr [= <-]].
  cbn [Re.rest] in Hr. exists w, r. done.
Qed.

Lemma fence_tail_app i (ws : str) :
  forallb is_space ws = true →
  Re.match_at fence_tail i (ws ++ fence_close)
  = Some (Re.MState (i + length ws + 3) [] None).
Proof.
  intros Hws. unfold Re.match_at, fence_tail.
  cbn [Re.rmatch Re.pos Re.rest Re.group1].
  apply star_longest; [done|done|]. reflexivity.
Qed.

(** Inside a text that ends with a character other than white space and is
    followed by more than a closing fence, the closing alternative does not
    match. *)
Lemma fence_tail_None_inside i (a2 b : str) :
  a2 ≠ [] → rstrip a2 = a2 →
  (b = [] → ends_with fence_close a2 = false) →
  (b ≠ [] → ∃ ws, b = ws ++ fence_close ∧ forallb is_space ws = true) →
  Re.match_at fence_tail i (a2 ++ b) = None.
Proof.
  intros Hne Hr Hnil Hcons.
  destruct (Re.match_at fence_tail i (a2 ++ b)) as [m|] eqn:Hm; [|done].
  exfalso. apply fence_tail_Some in Hm as (w & r & Heq & Hw & Hrr & _).
  destruct (exists_last Hne) as (a2' & c & ->).
  apply rstrip_fixed_snoc in Hr as Hc.
  destruct b as [|b0 b].
  - rewrite app_nil_r in Heq. specialize (Hnil eq_refl).
    destruct Hrr as [-> | ->].
    + rewrite app_nil_r in Heq. rewrite Heq in Hnil.
      unfold ends_with in Hnil. rewrite rev_app_distr in Hnil.
      unfold starts_with in Hnil. by rewrite strip_prefix_app in Hnil.
    + rewrite !app_assoc in Heq. apply app_inj_tail in Heq as [_ ->]. done.
  - destruct (Hcons ltac:(done)) as (ws & Hb & Hws). rewrite Hb in Heq.
    destruct Hrr as [-> | ->].
    + rewrite app_nil_r in Heq.
      rewrite !app_assoc in Heq. apply app_inv_tail in Heq.
      rewrite <-Heq in Hw. rewrite !forallb_app in Hw. simpl in Hw.
      rewrite Hc in Hw. rewrite andb_false_r in Hw. simpl in Hw.
      by rewrite andb_false_l in Hw || done.
    + unfold fence_close in Heq. change (lit "```") with ([96; 96] ++ [96])%N in Heq.
      rewrite !app_assoc in Heq. apply app_inj_tail in Heq as [_ [=]].
Qed.

Lemma rstrip_snoc_nonspace (s : str) (c : N) :
  is_space c = false → rstrip (s ++ [c]) = s ++ [c].
Proof.
  intros Hc. unfold rstrip. rewrite rev_app_distr. simpl. rewrite Hc.
  simpl. by rewrite rev_involutive.
Qed.

Lemma rstrip_fixed_suffix (a1 a2 : str) :
  rstrip (a1 ++ a2) = a1 ++ a2 → a2 ≠ [] → rstrip a2 = a2.
Proof.
  intros H Hne. destruct (exists_last Hne) as (a2' & c & ->).
  rewrite app_assoc in H. apply rstrip_fixed_snoc in H.
  by apply rstrip_snoc_nonspace.
Qed.

Lemma ends_with_app (p a1 a2 : str) :
  ends_with p a2 = true → ends_with p (a1 ++ a2) = true.
Proof.
  unfold ends_with, starts_with. rewrite rev_app_distr.
  destruct (strip_prefix (rev p) (rev a2)) as [r|] eqn:H; [|done].
  apply strip_prefix_Some in H. rewrite H, <-app_assoc, strip_prefix_app. done.
Qed.

Lemma sub_from_fence_nil f i : Re.sub_from f fence_pattern i [] = [].
Proof. destruct f as [|f]; [done|]. by destruct i. Qed.

(** A text that is not fenced passes through [strip_fence] unchanged. *)
Lemma strip_fence_plain (q : str) :
  strip q = q → starts_with fence_open q = false →
  ends_with fence_close q = false → strip_fence q = q.
Proof.
  intros Hq Hopen Hclose. unfold strip_fence, Re.sub_empty. rewrite Hq.
  apply strip_fixed in Hq as [_ Hr].
  replace (S (length q)) with (length q + 1) by lia.
  rewrite <-(app_nil_r q) at 2. rewrite sub_from_skip.
  - by rewrite sub_from_fence_nil, app_nil_r.
  - intros a1 a2 -> Ha2. rewrite fence_pattern_at.
    assert ((if Nat.eqb (0 + length a1) 0 then
               match strip_prefix fence_open (a2 ++ []) with
               | Some s' => Re.star is_space (0 + length a1 + 7) s' None Some
               | None => None
               end
             else None) = None) as ->.
    { destruct a1 as [|x a1]; [|reflexivity].
      simpl in Hopen. unfold starts_with in Hopen. rewrite app_nil_r.
      cbn [length Nat.add Nat.eqb].
      by destruct (strip_prefix fence_open a2). }
    apply fence_tail_None_inside; [done| |..].
    + by apply (rstrip_fixed_suffix a1).
    + intros _. destruct (ends_with fence_close a2) eqn:He; [|done].
      by rewrite (ends_with_app _ a1 a2 He) in Hclose.
    + done.
Qed.

Lemma strip_fence_fenced (ws1 ws2 q ws3 ws4 : str) :
  forallb is_space ws1 = true → forallb is_space ws2 = true →
  forallb is_space ws3 = true → forallb is_space ws4 = true →
  strip q = q → q ≠ [] →
  strip_fence (fenced ws1 ws2 q ws3 ws4) = q.
Proof.
  intros H1 H2 H3 H4 Hq Hne. unfold strip_fence, fenced.
  apply strip_fixed in Hq as [Hl Hr].
  set (body := fence_open ++ ws2 ++ q ++ ws3 ++ fence_close).
  replace (ws1 ++ fence_open ++ ws2 ++ q ++ ws3 ++ fence_close ++ ws4)
    with (ws1 ++ body ++ ws4) by (unfold body; by rewrite <-!app_assoc).
  rewrite strip_around; [|done|done|].
  2:{ unfold strip.
      assert (lstrip body = body) as -> by reflexivity.
      unfold body, fence_close. change (lit "```") with ([96; 96] ++ [96])%N.
      rewrite !app_assoc. by apply rstrip_snoc_nonspace. }
  unfold Re.sub_empty. cbn [Re.sub_from].
  destruct q as [|c q]; [done|]. apply lstrip_fixed_cons in Hl as Hc.
  assert (Re.match_at fence_pattern 0 body
          = Some (Re.MState (7 + length ws2) ((c :: q) ++ ws3 ++ fence_close) None)) as ->.
  { rewrite fence_pattern_at. cbn [Nat.eqb]. unfold body.
    rewrite strip_prefix_app.
    erewrite star_longest; [done|done| |reflexivity]. simpl. by rewrite Hc. }
  cbn [Re.pos Re.rest]. assert (Nat.ltb 0 (7 + length ws2) = true) as -> by done.
  replace (length body)
    with (length (c :: q) + S (9 + length ws2 + length ws3)).
  2:{ unfold body. rewrite !length_app. simpl. lia. }
  rewrite sub_from_skip.
  - cbn [Re.sub_from]. rewrite fence_pattern_at.
    assert (Nat.eqb (7 + length ws2 + length (c :: q)) 0 = false) as -> by done.
    rewrite fence_tail_app by done. cbn [Re.pos Re.rest].
    assert (Nat.ltb (7 + length ws2 + length (c :: q))
              (7 + length ws2 + length (c :: q) + length ws3 + 3) = true) as ->.
    { apply Nat.ltb_lt. lia. }
    by rewrite sub_from_fence_nil, app_nil_r.
  - intros a1 a2 Heq Ha2. rewrite fence_pattern_at.
    assert (Nat.eqb (7 + length ws2 + length a1) 0 = false) as -> by done.
    apply fence_tail_None_inside; [done| | |].
    + apply (rstrip_fixed_suffix a1); [|done]. by rewrite <-Heq.
    + intros [_ [=]]%app_eq_nil.
    + intros _. by exists ws3.
Qed.

(** ** The stages as runs *)

Lemma emit_emits e w : emit e w = emits [e] w.
Proof. reflexivity. Qed.


Lemma emits_nil w : emits [] w = w.
Proof. destruct w. unfold emits. simpl. by rewrite app_nil_r. Qed.

Lemma extract_transcript_run sv video_id w :
  extract_transcript sv video_id w
  = (emits (fetch_calls sv video_id) w, transcript_of sv video_id).
Proof.
  unfold extract_transcript, transcript_of, fetch_calls, bind, try_except, fetch, ret.
  unfold emit, emits. simpl.
  destruct (api_fetch sv video_id (Some preferred_languages)); simpl.
  - done.
  - rewrite <-app_assoc. simpl. by destruct (api_fetch sv video_id None).
Qed.

Lemma translate_run sv text w :
  translate sv text w = (emit (translate_call sv text) w, translation_of sv text).
Proof.
  unfold translate, translation_of, translate_call, bind, create, lift. simpl.
  by destruct (messages_create sv _ _ _).
Qed.

Lemma summarize_run sv korean w :
  summarize sv korean w = (emit (summarize_call sv korean) w, summary_of sv korean).
Proof.
  unfold summarize, summary_of, summarize_call, bind, create, lift. simpl.
  destruct (messages_create sv _ _ _) as [content|e]; simpl; [|done].
  by destruct (first_text content).
Qed.

(** ** Fence stripping in [summarize] *)

(** C6, as the code has it: for a text whose stripped form is not empty,
    does not itself open with [```json] and does not end with [```],
    [summarize] returns the same outcome whether the model answers with the
    text itself or with the text inside a fence opened by [```json] and
    closed by [```], with any white space around and between. *)
Theorem summarize_fence_transparent (sv1 sv2 : services) (korean : str)
    (w1 w2 : world) (q ws1 ws2 ws3 ws4 : str) (more1 more2 : list str) :
  forallb is_space ws1 = true → forallb is_space ws2 = true →
  forallb is_space ws3 = true → forallb is_space ws4 = true →
  strip q = q → q ≠ [] →
  starts_with fence_open q = false → ends_with fence_close q = false →
  messages_create sv1 4096 (summarize_prompt sv1) (summarize_request ++ korean)
    = Ok (fenced ws1 ws2 q ws3 ws4 :: more1) →
  messages_create sv2 4096 (summarize_prompt sv2) (summarize_request ++ korean)
    = Ok (q :: more2) →
  (summarize sv1 korean w1).2 = Json.loads q
  ∧ (summarize sv2 korean w2).2 = Json.loads q.
Proof.
  intros H1 H2 H3 H4 Hq Hne Hopen Hclose Hf Hp.
  rewrite !summarize_run. unfold summary_of. rewrite Hf, Hp. simpl.
  by rewrite strip_fence_fenced, strip_fence_plain.
Qed.

Lemma summarize_fence_transparent_witness :
  let q := lit "{}" in
  let sv1 := stub (fun _ => Ok []) (fun _ => Ok [fenced [] [10%N] q [10%N] [32%N]]) in
  let sv2 := stub (fun _ => Ok []) (fun _ => Ok [q]) in
  (summarize sv1 (lit "text") empty_world).2 = Json.loads q
  ∧ (summarize sv2 (lit "text") empty_world).2 = Json.loads q.
Proof.
  intros q sv1 sv2.
  apply (summarize_fence_transparent sv1 sv2 (lit "text") empty_world empty_world
           q [] [10%N] [10%N] [32%N] [] []);
    try reflexivity.
  discriminate.
Defined.

(** C6 as stated fails: a fence without the [json] tag loses its closing
    marker only, and what remains is not JSON. *)
Lemma summarize_bare_fence :
  let bare := lit "```" ++ [10%N] ++ lit "{}" ++ [10%N] ++ lit "```" in
  (summarize (stub (fun _ => Ok []) (fun _ => Ok [bare])) (lit "text") empty_world).2
    = Raise (Json.error "Expecting value")
  ∧ (summarize (stub (fun _ => Ok []) (fun _ => Ok [lit "{}"])) (lit "text") empty_world).2
    = Ok (Json.Obj []).
Proof. split; vm_compute; reflexivity. Qed.

(** ** Runs as replays of their events *)

Lemma replay_app l1 l2 w : replay (l1 ++ l2) w = replay l2 (replay l1 w).
Proof. apply fold_left_app. Qed.

Lemma replay_cons e l w : replay (e :: l) w = replay l (apply_event e w).
Proof. reflexivity. Qed.

Lemma log_replay l w : log (replay l w) = log w ++ l.
Proof.
  revert w. induction l as [|e l IH]; intros w; simpl.
  - by rewrite app_nil_r.
  - rewrite IH. destruct e; simpl; by rewrite <-app_assoc.
Qed.

Lemma replay_calls l w : forallb is_call l = true → replay l w = emits l w.
Proof.
  revert w. induction l as [|e l IH]; intros w Hl; simpl in *.
  - by rewrite emits_nil.
  - apply andb_prop in Hl as [He Hl]. rewrite IH by done.
    destruct e; try done; unfold emits, emit; simpl; by rewrite <-app_assoc.
Qed.

Lemma fetch_calls_are_calls sv video_id : forallb is_call (fetch_calls sv video_id) = true.
Proof. unfold fetch_calls. by destruct (api_fetch sv _ _). Qed.

Lemma set_job_run job_id a w j :
  jobs w !! job_id = Some j →
  set_job job_id a w = (apply_event (ESet job_id a (Job.assign a j)) w, Ok tt).
Proof. intros H. unfold set_job. by rewrite H. Qed.

Lemma write_file_run path content w :
  write_file path content w = (apply_event (EFile path content) w, Ok tt).
Proof. reflexivity. Qed.

(** What a poll of [job_id] returns after the events of [l]. *)
Lemma jobs_replay job_id l w :
  jobs (replay l w) !! job_id
  = match List.last (List.map Some (snapshots job_id l)) None with
    | Some j => Some j
    | None => jobs w !! job_id
    end.
Proof.
  revert w. induction l as [|e l IH]; intros w; [done|].
  rewrite replay_cons, IH. clear IH.
  assert (∀ (js : list Job.t) (x : Job.t),
            List.last (List.map Some (x :: js)) None
            = match List.last (List.map Some js) None with
              | Some y => Some y
              | None => Some x
              end) as Hlast.
  { intros js x. revert x. induction js as [|y js IHjs]; intros x; [done|].
    change (List.last (List.map Some (x :: y :: js)) None)
      with (List.last (List.map Some (y :: js)) None).
    rewrite IHjs. by destruct (List.last (List.map Some js) None). }
  destruct e as [| |id j|id a j| |]; simpl; try done.
  - destruct (decide (id = job_id)) as [->|Hne].
    + rewrite Hlast. destruct (List.last _ None); [done|]. apply lookup_insert_eq.
    + destruct (List.last _ None); [done|]. by apply lookup_insert_ne.
  - destruct (decide (id = job_id)) as [->|Hne].
    + rewrite Hlast. destruct (List.last _ None); [done|]. apply lookup_insert_eq.
    + destruct (List.last _ None); [done|]. by apply lookup_insert_ne.
Qed.

Lemma bind_eq {A B} (m : M A) (f : A → M B) w :
  bind m f w = match m w with
               | (w', Ok a) => f a w'
               | (w', Raise e) => (w', Raise e)
               end.
Proof. reflexivity. Qed.

Lemma jobs_after_set job_id a j w :
  jobs (apply_event (ESet job_id a j) w) !! job_id = Some j.
Proof. apply lookup_insert_eq. Qed.

Lemma jobs_emits l w : jobs (emits l w) = jobs w.
Proof. reflexivity. Qed.

Lemma jobs_after_file path content w :
  jobs (apply_event (EFile path content) w) = jobs w.
Proof. reflexivity. Qed.

(** One assignment of the body: the entry is there, the write happens. *)
Ltac run_set :=
  rewrite bind_eq;
  erewrite set_job_run by
    (rewrite ?jobs_emits, ?jobs_after_file;
     first [eassumption | apply jobs_after_set]);
  cbv beta iota.

Ltac run_set_last :=
  erewrite set_job_run by
    (rewrite ?jobs_emits, ?jobs_after_file;
     first [eassumption | apply jobs_after_set]).

(** The code under [try:] performs [body_events] and ends as
    [body_outcome] says. *)
Lemma process_video_body_run sv job_id url w j :
  jobs w !! job_id = Some j →
  process_video_body sv job_id url w
  = (replay (body_events sv job_id url j) w, body_outcome sv url).
Proof.
  intros Hj. unfold process_video_body, body_events, body_outcome, stages.
  rewrite replay_cons. run_set.
  destruct (api_key_missing sv); [reflexivity|].
  rewrite bind_eq. unfold ret at 1. cbv beta iota.
  rewrite bind_eq. unfold lift at 1.
  destruct (extract_video_id url) as [video_id|e]; [|reflexivity].
  cbv beta iota. rewrite !replay_cons. cbn [obind]. run_set. run_set.
  rewrite replay_app, (replay_calls (fetch_calls _ _)) by apply fetch_calls_are_calls.
  rewrite bind_eq, extract_transcript_run.
  destruct (transcript_of sv video_id) as [original|e]; [|reflexivity].
  cbv beta iota. rewrite !replay_cons. cbn [obind]. run_set.
  rewrite bind_eq, translate_run.
  change (apply_event (translate_call sv original) ?w)
    with (emits [translate_call sv original] w).
  rewrite emit_emits.
  destruct (translation_of sv original) as [korean|e]; [|reflexivity].
  cbv beta iota. rewrite !replay_cons. cbn [obind]. run_set.
  rewrite bind_eq, summarize_run.
  change (apply_event (summarize_call sv korean) ?w)
    with (emits [summarize_call sv korean] w).
  rewrite emit_emits.
  destruct (summary_of sv korean) as [summary|e]; [|reflexivity].
  cbv beta iota. rewrite !replay_cons. cbn [obind]. run_set.
  unfold persist_events. rewrite replay_cons.
  rewrite bind_eq, write_file_run. cbv beta iota.
  rewrite bind_eq. unfold lift at 1.
  destruct (generate_html sv video_id korean summary) as [html_content|e]; [|reflexivity].
  cbv beta iota. rewrite !replay_cons.
  rewrite bind_eq, write_file_run. cbv beta iota.
  run_set. run_set. run_set_last. reflexivity.
Qed.

Lemma last_map_Some {A} (l : list A) (d : A) :
  List.last (List.map Some l) None = match l with [] => None | _ => Some (List.last l d) end.
Proof.
  induction l as [|x l IH]; [done|].
  destruct l as [|y l]; [done|].
  change (List.last (List.map Some (x :: y :: l)) None)
    with (List.last (List.map Some (y :: l)) None).
  rewrite IH. done.
Qed.

Lemma jobs_replay_last job_id l w j :
  jobs w !! job_id = Some j →
  jobs (replay l w) !! job_id = Some (List.last (snapshots job_id l) j).
Proof.
  intros Hj. rewrite jobs_replay, (last_map_Some _ j).
  by destruct (snapshots job_id l).
Qed.

(** [process_video] always returns: whatever the body raises is caught, and
    the world is the replay of [process_video_events]. *)
Lemma process_video_run sv job_id url w j :
  jobs w !! job_id = Some j →
  process_video sv job_id url w
  = (replay (process_video_events sv job_id url j) w, Ok tt).
Proof.
  intros Hj. unfold process_video, try_except, process_video_events.
  rewrite (process_video_body_run _ _ _ _ j Hj).
  destruct (body_outcome sv url) as [[]|e].
  - by rewrite app_nil_r.
  - rewrite replay_app. unfold handler_events. rewrite !replay_cons.
    pose proof (jobs_replay_last job_id (body_events sv job_id url j) w j Hj) as Hlast.
    fold (body_last sv job_id url j) in Hlast.
    rewrite bind_eq, (set_job_run _ _ _ _ Hlast). cbv beta iota.
    by rewrite (set_job_run _ _ _ _ (jobs_after_set _ _ _ _)).
Qed.

Lemma files_replay_no_write l w :
  forallb (λ e, negb (is_file_write e)) l = true → files (replay l w) = files w.
Proof.
  revert w. induction l as [|e l IH]; intros w Hl; [done|].
  simpl in Hl. apply andb_prop in Hl as [He Hl].
  rewrite replay_cons, IH by done. by destruct e.
Qed.

(** ** A summary that does not parse *)



(** ** Transcript retrieval *)

Lemma join_two (sep a b : str) : join sep [a; b] = a ++ sep ++ b.
Proof. reflexivity. Qed.

Lemma join_cons (sep p q : str) (ps : list str) :
  join sep (p :: q :: ps) = p ++ sep ++ join sep (q :: ps).
Proof. reflexivity. Qed.


Example extract_transcript_fallback :
  (extract_transcript
     (stub (fun languages => match languages with
                             | Some _ => Raise (Exn ServiceError (lit "no transcript"))
                             | None => Ok [lit "Hello"; lit "world"]
                             end)
           (fun _ => Ok []))
     (lit "dQw4w9WgXcQ") empty_world).2
  = Ok (lit "Hello world").
Proof. reflexivity. Qed.

(** ** Submission *)

Lemma length_hex_fixed width n : length (hex_fixed width n) = width.
Proof.
  revert n. induction width as [|width IH]; intros n; simpl; [done|].
  rewrite length_app, IH. simpl. lia.
Qed.

Lemma job_id_length u : length (take 8 (uuid_str u)) = 8.
Proof.
  unfold uuid_str. rewrite take_app_length'.
  - rewrite length_take, length_hex_fixed. lia.
  - rewrite length_take, length_hex_fixed. lia.
Qed.

Lemma take_hex_fixed k m n :
  take k (hex_fixed (k + m) n) = hex_fixed k (n / 16 ^ N.of_nat m).
Proof.
  revert n. induction m as [|m IH]; intros n.
  - rewrite Nat.add_0_r, firstn_all2 by (rewrite length_hex_fixed; lia).
    by rewrite N.div_1_r.
  - rewrite Nat.add_succ_r. cbn [hex_fixed].
    rewrite take_app_le by (rewrite length_hex_fixed; lia).
    rewrite IH. f_equal. rewrite Nat2N.inj_succ, N.pow_succ_r'.
    by rewrite N.Div0.div_div.
Qed.

(** C10: a submission returns the first eight characters of the UUID's
    text, which are the hexadecimal digits of its top 32 bits, and stores a
    fresh pending entry under them, whatever the registry held there
    before; the other entries and the files are untouched, and the task is
    handed to the background runner. *)
Theorem start_translation_spec (u : N) (url : str) (w : world) :
  let job_id := take 8 (uuid_str u) in
  let '(w', r) := start_translation u url w in
  r = Ok job_id
  ∧ length job_id = 8
  ∧ job_id = hex_fixed 8 (u / 2 ^ 96)
  ∧ jobs w' !! job_id = Some fresh_job
  ∧ Job.status fresh_job = pending ∧ Job.video_id fresh_job = None
  ∧ Job.error fresh_job = None ∧ Job.result fresh_job = None
  ∧ (∀ other, other ≠ job_id → jobs w' !! other = jobs w !! other)
  ∧ files w' = files w
  ∧ log w' = log w ++ [EPut job_id fresh_job; ETask job_id url].
Proof.
  intros job_id. unfold start_translation, bind, put_job, add_task, ret, emit.
  fold job_id. cbv beta iota. cbn [jobs files log].
  split; [done|]. split; [apply job_id_length|].
  split.
  { unfold job_id, uuid_str.
    rewrite take_app_length' by (rewrite length_take, length_hex_fixed; lia).
    by rewrite (take_hex_fixed 8 24). }
  split; [apply lookup_insert_eq|].
  do 4 (split; [done|]).
  split; [intros other Hne; by apply lookup_insert_ne|].
  split; [done|]. by rewrite <-app_assoc.
Qed.

(** Two submissions whose UUIDs agree on the top 32 bits share an entry:
    the second resets what the first run left there. *)
Example start_translation_collision :
  let u1 := 0x12345678000000000000000000000001%N in
  let u2 := 0x12345678ffffffffffffffffffffffff%N in
  take 8 (uuid_str u1) = take 8 (uuid_str u2)
  ∧ take 8 (uuid_str u1) = lit "12345678".
Proof. split; reflexivity. Qed.

(** ** The life of a registry entry *)

Lemma new_events l w : drop (length (log w)) (log (replay l w)) = l.
Proof. by rewrite log_replay, drop_app_length. Qed.

Ltac lifecycle_case t n m :=
  exists t; eexists; simpl; rewrite !decide_True by done; simpl;
  split; [done|]; split; [done|]; split; [reflexivity|]; split; [done|];
  split; [split; [by eexists|done]|]; exists n, m;
  split; [lia|]; split; [lia|reflexivity].

(** C1, as the code has it, for one run of [process_video] on an entry that
    is still as [start_translation] left it and that no later submission
    overwrites: the run returns normally; it assigns the status exactly
    twice, first [processing], then one terminal status; every state a poll
    can see during the run is [processing] until the terminal assignment
    and carries the terminal status from then on; and when the run has
    finished the entry is either [completed] with a result and no error, or
    [failed] with an error message and no result. *)
Theorem job_lifecycle (sv : services) (job_id url : str) (w : world) (j : Job.t) :
  jobs w !! job_id = Some j →
  Job.status j = pending → Job.error j = None → Job.result j = None →
  let '(w', r) := process_video sv job_id url w in
  let new := drop (length (log w)) (log w') in
  r = Ok tt
  ∧ ∃ t jf,
      terminal t = true
      ∧ status_writes job_id new = [processing; t]
      ∧ jobs w' !! job_id = Some jf
      ∧ Job.status jf = t
      ∧ match t with
        | completed => is_Some (Job.result jf) ∧ Job.error jf = None
        | _ => is_Some (Job.error jf) ∧ Job.result jf = None
        end
      ∧ ∃ n m, 0 < n ∧ 0 < m
          ∧ List.map Job.status (snapshots job_id new)
            = repeat processing n ++ repeat t m.
Proof.
  intros Hj Hst Herr Hres. rewrite (process_video_run _ _ _ _ j Hj).
  rewrite new_events. split; [done|].
  rewrite (jobs_replay_last _ _ _ _ Hj).
  unfold process_video_events, handler_events, body_last, body_outcome, stages,
    body_events, persist_events, fetch_calls.
  destruct j as [st vid stp err res hp]. simpl in Hst, Herr, Hres. subst.
  destruct (api_key_missing sv); [lifecycle_case failed 1 2|].
  destruct (extract_video_id url) as [video_id|e]; cbn [obind];
    [|lifecycle_case failed 1 2].
  destruct (transcript_of sv video_id) as [original|e]; cbn [obind];
    [|destruct (api_fetch sv video_id (Some preferred_languages));
      lifecycle_case failed 3 2].
  destruct (translation_of sv original) as [korean|e]; cbn [obind];
    [|destruct (api_fetch sv video_id (Some preferred_languages));
      lifecycle_case failed 4 2].
  destruct (summary_of sv korean) as [summary|e]; cbn [obind];
    [|destruct (api_fetch sv video_id (Some preferred_languages));
      lifecycle_case failed 5 2].
  destruct (generate_html sv video_id korean summary) as [html_content|e];
    cbn [obind];
    destruct (api_fetch sv video_id (Some preferred_languages));
    [lifecycle_case completed 6 3|lifecycle_case completed 6 3
    |lifecycle_case failed 6 2|lifecycle_case failed 6 2].
Qed.

Lemma job_lifecycle_witness :
  let sv := stub (fun _ => Ok [lit "Hello"; lit "world"])
              (fun max_tokens => if (max_tokens =? 8192)%N then Ok [lit "annyeong"]
                                 else Ok [lit "{}"]) in
  let w := World (<[lit "job" := fresh_job]> ∅) ∅ [] in
  (process_video sv (lit "job") (lit "dQw4w9WgXcQ") w).2 = Ok tt.
Proof.
  intros sv w.
  pose proof (job_lifecycle sv (lit "job") (lit "dQw4w9WgXcQ") w fresh_job) as H.
  destruct (process_video sv (lit "job") (lit "dQw4w9WgXcQ") w) as [w' r].
  apply H; [apply lookup_insert_eq|reflexivity..].
Defined.

(** C1 as stated fails in two ways.  The terminal status is assigned before
    the result is attached, so a poll that arrives between the two
    assignments, before the run has finished, already reads [completed],
    and reads it without a result.  And a later submission that draws the
    same eight characters overwrites the finished entry with a pending
    one. *)
Lemma job_status_counterexample :
  let sv := stub (fun _ => Ok [lit "Hello"; lit "world"])
              (fun max_tokens => if (max_tokens =? 8192)%N then Ok [lit "annyeong"]
                                 else Ok [lit "{}"]) in
  let u := 0x12345678123456781234567812345678%N in
  let url := lit "https://youtu.be/dQw4w9WgXcQ" in
  let job_id := lit "12345678" in
  let w1 := (start_translation u url empty_world).1 in
  let w2 := (process_video sv job_id url w1).1 in
  let during := replay (take 14 (log w2)) empty_world in
  let w3 := (start_translation u url w2).1 in
  (start_translation u url empty_world).2 = Ok job_id
  ∧ length (log w2) = 16
  ∧ Job.status <$> jobs during !! job_id = Some completed
  ∧ jobs during !! job_id ≫= Job.result = None
  ∧ Job.status <$> jobs w2 !! job_id = Some completed
  ∧ Job.status <$> jobs w3 !! job_id = Some pending.
Proof. vm_compute. repeat split. Qed.

(** ** The order of the stages *)


Lemma filter_calls_calls l : forallb is_call l = true → List.filter is_call l = l.
Proof.
  induction l as [|e l IH]; simpl; [done|].
  intros [-> Hl]%andb_prop. by rewrite IH.
Qed.


Lemma body_events_calls sv job_id url j :
  api_key_missing sv = false →
  List.filter is_call (body_events sv job_id url j) = stage_calls sv url.
Proof.
  intros Hkey. unfold body_events, stage_calls, persist_events. rewrite Hkey.
  destruct (extract_video_id url) as [video_id|e]; [|done].
  cbn [List.filter is_call]. rewrite !List.filter_app.
  rewrite (filter_calls_calls (fetch_calls _ _)) by apply fetch_calls_are_calls.
  f_equal.
  destruct (transcript_of sv video_id) as [original|e]; [|done].
  cbn [List.filter is_call translate_call]. f_equal.
  destruct (translation_of sv original) as [korean|e]; [|done].
  cbn [List.filter is_call summarize_call]. f_equal.
  destruct (summary_of sv korean) as [summary|e]; [|done].
  cbn [List.filter is_call].
  by destruct (generate_html sv video_id korean summary).
Qed.

Lemma files_replay_calls l w : forallb is_call l = true → files (replay l w) = files w.
Proof. intros H. by rewrite replay_calls. Qed.

Lemma body_events_files sv job_id url j w :
  api_key_missing sv = false →
  files (replay (body_events sv job_id url j) w)
  = match stages sv url with
    | Raise _ => files w
    | Ok (video_id, original, korean, summary) =>
        let doc := Json.dumps (make_result video_id original korean summary
                                 (now_isoformat sv)) in
        match generate_html sv video_id korean summary with
        | Raise _ => <[json_path video_id := doc]> (files w)
        | Ok html_content =>
            <[html_path video_id := html_content]>
              (<[json_path video_id := doc]> (files w))
        end
    end.
Proof.
  intros Hkey. unfold body_events, stages, persist_events, fetch_calls.
  rewrite Hkey.
  destruct (extract_video_id url) as [video_id|e]; cbn [obind]; [|done].
  destruct (transcript_of sv video_id) as [original|e]; cbn [obind];
    [|by destruct (api_fetch sv video_id (Some preferred_languages))].
  destruct (translation_of sv original) as [korean|e]; cbn [obind];
    [|by destruct (api_fetch sv video_id (Some preferred_languages))].
  destruct (summary_of sv korean) as [summary|e]; cbn [obind];
    [|by destruct (api_fetch sv video_id (Some preferred_languages))].
  destruct (generate_html sv video_id korean summary) as [html_content|e];
    by destruct (api_fetch sv video_id (Some preferred_languages)).
Qed.




(** ** JSON: decoding what the encoder wrote *)

Lemma value_induction (P : Json.value → Prop) :
  P Json.Null → (∀ b, P (Json.Bool b)) → (∀ z, P (Json.Int z)) →
  (∀ x, P (Json.Float x)) → (∀ s, P (Json.Str s)) →
  (∀ l, Forall P l → P (Json.Arr l)) →
  (∀ d, Forall (λ kv, P kv.2) d → P (Json.Obj d)) →
  ∀ v, P v.
Proof.
  intros HN HB HI HF HS HA HO. fix IH 1.
  intros [|b|z|x|s|l|d];
    [exact HN|apply HB|apply HI|apply HF|apply HS| |].
  - apply HA. induction l as [|v l IHl]; constructor; [apply IH|exact IHl].
  - apply HO. induction d as [|[k v] d IHd]; constructor; [apply IH|exact IHd].
Qed.

Lemma scan_string_eq (c : N) (s1 acc : str) :
  Json.scan_string (c :: s1) acc =
  if (c =? 34)%N then Ok (rev acc, s1)
  else if (c =? 92)%N then
    match s1 with
    | [] => Raise (Json.error "Unterminated string starting at")
    | e :: s2 =>
        if (e =? 117)%N then
          match s2 with
          | h1 :: h2 :: h3 :: h4 :: s3 =>
              match Json.hex4 h1 h2 h3 h4 with
              | None => Raise (Json.error "Invalid \uXXXX escape")
              | Some u =>
                  match s3 with
                  | b :: x :: g1 :: g2 :: g3 :: g4 :: s4 =>
                      match Json.hex4 g1 g2 g3 g4 with
                      | Some u2 =>
                          if Json.is_high_surrogate u && (b =? 92)%N && (x =? 117)%N
                             && Json.is_low_surrogate u2
                          then Json.scan_string s4
                                 ((65536 + (u - 55296) * 1024 + (u2 - 56320))%N :: acc)
                          else Json.scan_string s3 (u :: acc)
                      | None =>
                          if Json.is_high_surrogate u && (b =? 92)%N && (x =? 117)%N
                          then Raise (Json.error "Invalid \uXXXX escape")
                          else Json.scan_string s3 (u :: acc)
                      end
                  | _ => Json.scan_string s3 (u :: acc)
                  end
              end
          | _ => Raise (Json.error "Invalid \uXXXX escape")
          end
        else
          match Json.unescape e with
          | Some c' => Json.scan_string s2 (c' :: acc)
          | None => Raise (Json.error "Invalid \escape")
          end
    end
  else if (c <? 32)%N then Raise (Json.error "Invalid control character at")
  else Json.scan_string s1 (c :: acc).
Proof. reflexivity. Qed.

(** A [\u00XY] escape of a control character reads back as the character. *)
Lemma scan_string_u00 (c : N) (tail acc : str) :
  (c <? 32)%N = true →
  Json.scan_string
    ([92; 117; 48; 48; Json.hex_digit (c / 16); Json.hex_digit (c mod 16)]%N ++ tail) acc
  = Json.scan_string tail (c :: acc).
Proof.
  intros Hc. cbn [app]. rewrite scan_string_eq. cbn [N.eqb Pos.eqb].
  assert (Json.hex4 48 48 (Json.hex_digit (c / 16)) (Json.hex_digit (c mod 16)) = Some c)
    as ->.
  { destruct c as [|p]; [done|].
    do 6 (destruct p as [p|p|]; try discriminate Hc; try reflexivity). }
  assert (Json.is_high_surrogate c = false) as Hs.
  { unfold Json.is_high_surrogate. apply N.ltb_lt in Hc.
    apply andb_false_iff. left. apply N.leb_gt. lia. }
  destruct tail as [|b [|x [|g1 [|g2 [|g3 [|g4 s4]]]]]]; try reflexivity.
  rewrite Hs. cbn [andb]. by destruct (Json.hex4 g1 g2 g3 g4).
Qed.

Lemma scan_string_escape (c : N) (tail acc : str) :
  Json.scan_string (Json.escape_char c ++ tail) acc
  = Json.scan_string tail (c :: acc).
Proof.
  unfold Json.escape_char.
  destruct (N.eqb_spec c 34) as [->|H34]; [reflexivity|].
  destruct (N.eqb_spec c 92) as [->|H92]; [reflexivity|].
  destruct (N.eqb_spec c 10) as [->|H10]; [reflexivity|].
  destruct (N.eqb_spec c 13) as [->|H13]; [reflexivity|].
  destruct (N.eqb_spec c 9) as [->|H9]; [reflexivity|].
  destruct (N.eqb_spec c 8) as [->|H8]; [reflexivity|].
  destruct (N.eqb_spec c 12) as [->|H12]; [reflexivity|].
  destruct (c <? 32)%N eqn:Hc; [by apply scan_string_u00|].
  cbn [app]. rewrite scan_string_eq.
  apply N.eqb_neq in H34, H92. by rewrite H34, H92, Hc.
Qed.

Lemma scan_string_encoded (s rest acc : str) :
  Json.scan_string (flat_map Json.escape_char s ++ [34%N] ++ rest) acc
  = Ok (rev acc ++ s, rest).
Proof.
  revert acc. induction s as [|c s IH]; intros acc.
  - simpl. by rewrite app_nil_r.
  - cbn [flat_map]. rewrite <-app_assoc, scan_string_escape, IH.
    simpl. by rewrite <-app_assoc.
Qed.

Lemma digits_of_app fuel n (acc : str) :
  Json.digits_of fuel n acc = Json.digits_of fuel n [] ++ acc.
Proof.
  revert n acc. induction fuel as [|fuel IH]; intros n acc; simpl; [done|].
  destruct (n <? 10)%N; [done|].
  rewrite IH, (IH _ [_]). by rewrite <-app_assoc.
Qed.

Lemma digits_value_snoc (ds : str) (d : N) :
  Json.digits_value (ds ++ [d]) = (Json.digits_value ds * 10 + Z.of_N (d - 48))%Z.
Proof. unfold Json.digits_value. by rewrite fold_left_app. Qed.

Lemma digits_of_S fuel n (acc : str) :
  Json.digits_of (S fuel) n acc
  = if (n <? 10)%N then (48 + n)%N :: acc
    else Json.digits_of fuel (n / 10)%N ((48 + n mod 10)%N :: acc).
Proof. reflexivity. Qed.

Lemma digits_of_spec fuel (n : N) :
  (n < 2 ^ N.of_nat (S fuel))%N →
  let ds := Json.digits_of (S fuel) n [] in
  forallb Json.is_digit ds = true
  ∧ Json.digits_value ds = Z.of_N n
  ∧ ∃ c ds', ds = c :: ds' ∧ (if (n =? 0)%N then ds' = [] ∧ c = 48%N else c ≠ 48%N).
Proof.
  assert (∀ n, (n < 10)%N →
            forallb Json.is_digit [(48 + n)%N] = true
            ∧ Json.digits_value [(48 + n)%N] = Z.of_N n
            ∧ ∃ c ds', [(48 + n)%N] = c :: ds'
                ∧ (if (n =? 0)%N then ds' = [] ∧ c = 48%N else c ≠ 48%N)) as Hsmall.
  { clear n. intros n Hlt. split; [|split].
    - simpl. rewrite andb_true_r. unfold Json.is_digit.
      apply andb_true_iff. split; apply N.leb_le; lia.
    - unfold Json.digits_value. simpl. lia.
    - exists (48 + n)%N, []. split; [done|].
      destruct (N.eqb_spec n 0) as [->|]; [done|lia]. }
  revert n. induction fuel as [|fuel IH]; intros n Hn.
  { rewrite digits_of_S. destruct (N.ltb_spec n 10) as [Hlt|Hge]; [by apply Hsmall|].
    simpl in Hn. lia. }
  rewrite digits_of_S. destruct (N.ltb_spec n 10) as [Hlt|Hge]; [by apply Hsmall|].
  assert (n / 10 < 2 ^ N.of_nat (S fuel))%N as Hdiv.
  { rewrite (Nat2N.inj_succ (S fuel)), N.pow_succ_r' in Hn.
    apply N.Div0.div_lt_upper_bound. lia. }
  destruct (IH _ Hdiv) as (Hdig & Hval & c & ds' & Hds & Hhead).
  cbv zeta in Hdig, Hval, Hds.
  rewrite digits_of_app. cbv zeta. split; [|split].
  - rewrite forallb_app, Hdig. simpl. rewrite andb_true_r.
    unfold Json.is_digit.
    assert (n mod 10 < 10)%N as Hmod by (apply N.mod_upper_bound; lia).
    set (r := (n mod 10)%N) in *. clearbody r.
    apply andb_true_iff. split; apply N.leb_le; lia.
  - rewrite digits_value_snoc, Hval.
    pose proof (N.div_mod n 10 ltac:(lia)) as Hdm.
    set (r := (n mod 10)%N) in *. set (q := (n / 10)%N) in *.
    clearbody r q. lia.
  - exists c, (ds' ++ [(48 + n mod 10)%N]). rewrite Hds. split; [done|].
    destruct (N.eqb_spec n 0) as [->|]; [lia|].
    destruct (N.eqb_spec (n / 10) 0) as [H0|]; [|done].
    apply N.div_small_iff in H0; [|done]. exfalso.
    clear -H0 Hge. lia.
Qed.

Lemma encode_nat_spec n :
  let ds := Json.encode_nat n in
  forallb Json.is_digit ds = true
  ∧ Json.digits_value ds = Z.of_N n
  ∧ ∃ c ds', ds = c :: ds' ∧ (if (n =? 0)%N then ds' = [] ∧ c = 48%N else c ≠ 48%N).
Proof.
  apply digits_of_spec. rewrite Nat2N.inj_succ, N2Nat.id.
  destruct n as [|p]; [done|]. apply N.log2_spec. lia.
Qed.

Lemma span_digits_cons (c : N) (s : str) :
  Json.span_digits (c :: s)
  = if Json.is_digit c then let '(ds, r) := Json.span_digits s in (c :: ds, r)
    else ([], c :: s).
Proof. reflexivity. Qed.

Lemma span_digits_app (ds rest : str) :
  forallb Json.is_digit ds = true →
  head (List.map Json.is_digit rest) ≠ Some true →
  Json.span_digits (ds ++ rest) = (ds, rest).
Proof.
  intros Hds Hrest. induction ds as [|c ds IH].
  - destruct rest as [|c rest]; [done|]. cbn [app]. rewrite span_digits_cons.
    simpl in Hrest. destruct (Json.is_digit c); [by destruct Hrest|done].
  - simpl in Hds. apply andb_prop in Hds as [Hc Hds].
    cbn [app]. rewrite span_digits_cons, Hc, (IH Hds). reflexivity.
Qed.

Lemma ends_number_head (rest : str) :
  Json.ends_number rest = true → head (List.map Json.is_digit rest) ≠ Some true.
Proof.
  destruct rest as [|c rest]; [done|]. simpl.
  destruct (Json.is_digit c); [done|]. discriminate.
Qed.

(** A run of digits without a leading zero, followed by something that
    ends a number, reads back as an integer. *)
Lemma scan_number_digits (sign ds rest : str) (c : N) (ds' : str) :
  ds = c :: ds' → forallb Json.is_digit ds = true →
  (if (c =? 48)%N then ds' = [] else True) →
  Json.ends_number rest = true →
  (sign = [] ∨ sign = [45%N]) →
  Json.scan_number (sign ++ ds ++ rest)
  = Some (Json.Int (match sign with
                    | [] => Json.digits_value ds
                    | _ :: _ => (- Json.digits_value ds)%Z
                    end), rest).
Proof.
  intros -> Hds Hzero Hend Hsign.
  assert (Json.is_digit c = true) as Hc by (simpl in Hds; by apply andb_prop in Hds as [? _]).
  assert ((c =? 45)%N = false) as Hminus.
  { unfold Json.is_digit in Hc. apply andb_prop in Hc as [H1%N.leb_le H2].
    apply N.eqb_neq. lia. }
  assert (Json.scan_frac rest = ([], rest)) as Hfrac.
  { destruct rest as [|c0 rest']; [done|]. simpl in Hend. unfold Json.scan_frac.
    destruct (c0 =? 46)%N; [|done]. by rewrite orb_true_r in Hend. }
  assert (Json.scan_exp rest = ([], rest)) as Hexp.
  { destruct rest as [|c0 rest']; [done|]. simpl in Hend. unfold Json.scan_exp.
    destruct (c0 =? 101)%N; [by rewrite !orb_true_r in Hend|].
    destruct (c0 =? 69)%N; [by rewrite !orb_true_r in Hend|]. done. }
  assert (Json.scan_int ((c :: ds') ++ rest) = Some (c :: ds', rest)) as Hint.
  { unfold Json.scan_int. cbn [app]. destruct (N.eqb_spec c 48) as [->|Hne].
    - by rewrite Hzero.
    - rewrite Hc. change (c :: ds' ++ rest) with ((c :: ds') ++ rest).
      rewrite span_digits_app; [done|done|by apply ends_number_head]. }
  unfold Json.scan_number.
  destruct Hsign as [-> | ->].
  - assert (Json.scan_sign ([] ++ (c :: ds') ++ rest) = ([], (c :: ds') ++ rest)) as ->.
    { unfold Json.scan_sign. cbn [app]. by rewrite Hminus. }
    by rewrite Hint, Hfrac, Hexp.
  - assert (Json.scan_sign ([45%N] ++ (c :: ds') ++ rest)
            = ([45%N], (c :: ds') ++ rest)) as -> by reflexivity.
    by rewrite Hint, Hfrac, Hexp.
Qed.

Lemma scan_number_encode_int (z : Z) (rest : str) :
  Json.ends_number rest = true →
  Json.scan_number (Json.encode_int z ++ rest) = Some (Json.Int z, rest).
Proof.
  intros Hend. destruct z as [|p|p].
  - by apply (scan_number_digits [] [48%N] rest 48 []); [..|left].
  - destruct (encode_nat_spec (N.pos p)) as (Hdig & Hval & c & ds' & Hds & Hhead).
    assert (if (c =? 48)%N then ds' = [] else True) as Hzero.
    { simpl in Hhead. by destruct (N.eqb_spec c 48). }
    pose proof (scan_number_digits [] _ rest c ds' Hds Hdig Hzero Hend
                  (or_introl eq_refl)) as H.
    cbn [app] in H. cbn [Json.encode_int]. rewrite H. by rewrite Hval.
  - destruct (encode_nat_spec (N.pos p)) as (Hdig & Hval & c & ds' & Hds & Hhead).
    assert (if (c =? 48)%N then ds' = [] else True) as Hzero.
    { simpl in Hhead. by destruct (N.eqb_spec c 48). }
    pose proof (scan_number_digits [45%N] _ rest c ds' Hds Hdig Hzero Hend
                  (or_intror eq_refl)) as H.
    cbn [app] in H. cbn [Json.encode_int app]. rewrite H. by rewrite Hval.
Qed.

(** *** The decoder, one call at a time *)

Lemma scan_once_string fuel (s1 : str) :
  Json.scan_once (S fuel) (34%N :: s1)
  = let* (x, r) := Json.scan_string s1 [] in Ok (Json.Str x, r).
Proof. reflexivity. Qed.

Lemma scan_once_array fuel (s1 : str) :
  Json.scan_once (S fuel) (91%N :: s1)
  = match Json.skip_ws s1 with
    | [] => Raise (Json.error "Expecting value")
    | d :: s2 =>
        if (d =? 93)%N then Ok (Json.Arr [], s2)
        else Json.scan_items fuel (d :: s2) []
    end.
Proof. reflexivity. Qed.

Lemma scan_once_object fuel (s1 : str) :
  Json.scan_once (S fuel) (123%N :: s1)
  = match Json.skip_ws s1 with
    | [] => Raise (Json.error "Expecting property name enclosed in double quotes")
    | d :: s2 =>
        if (d =? 125)%N then Ok (Json.Obj [], s2)
        else Json.scan_pairs fuel (d :: s2) []
    end.
Proof. reflexivity. Qed.

Lemma scan_items_S fuel (s : str) acc :
  Json.scan_items (S fuel) s acc
  = let* (v, s1) := Json.scan_once fuel s in
    match Json.skip_ws s1 with
    | [] => Raise (Json.error "Expecting ',' delimiter")
    | d :: s2 =>
        if (d =? 93)%N then Ok (Json.Arr (rev (v :: acc)), s2)
        else if (d =? 44)%N then Json.scan_items fuel (Json.skip_ws s2) (v :: acc)
        else Raise (Json.error "Expecting ',' delimiter")
    end.
Proof. reflexivity. Qed.

Lemma scan_pairs_S fuel (s1 : str) acc :
  Json.scan_pairs (S fuel) (34%N :: s1) acc
  = let* (key, s2) := Json.scan_string s1 [] in
    match Json.skip_ws s2 with
    | [] => Raise (Json.error "Expecting ':' delimiter")
    | c :: s3 =>
        if (c =? 58)%N then
          let* (v, s4) := Json.scan_once fuel (Json.skip_ws s3) in
          match Json.skip_ws s4 with
          | [] => Raise (Json.error "Expecting ',' delimiter")
          | d :: s5 =>
              if (d =? 125)%N then Ok (Json.Obj (Json.dict_set key v acc), s5)
              else if (d =? 44)%N then
                Json.scan_pairs fuel (Json.skip_ws s5) (Json.dict_set key v acc)
              else Raise (Json.error "Expecting ',' delimiter")
          end
        else Raise (Json.error "Expecting ':' delimiter")
    end.
Proof. reflexivity. Qed.

(** A number: none of the other alternatives of [scan_once] applies to a
    text that starts with a minus sign or a digit. *)
Lemma scan_once_number fuel (c : N) (t : str) vr :
  (c = 45%N ∨ Json.is_digit c = true) →
  Json.scan_number (c :: t) = Some vr →
  Json.scan_once (S fuel) (c :: t) = Ok vr.
Proof.
  intros Hc Hnum.
  assert ((48 <= c <= 57)%N ∨ c = 45%N) as Hrange.
  { destruct Hc as [->|Hd]; [by right|left].
    unfold Json.is_digit in Hd. apply andb_prop in Hd as [?%N.leb_le ?%N.leb_le]. lia. }
  assert (∀ k p, k ≠ c → strip_prefix (k :: p) (c :: t) = None) as Hsp.
  { intros k p Hk. simpl. apply N.eqb_neq in Hk. by rewrite Hk. }
  assert (strip_prefix (lit "null") (c :: t) = None) as Hnull
    by (apply (Hsp 110%N (lit "ull")); lia).
  assert (strip_prefix (lit "true") (c :: t) = None) as Htrue
    by (apply (Hsp 116%N (lit "rue")); lia).
  assert (strip_prefix (lit "false") (c :: t) = None) as Hfalse
    by (apply (Hsp 102%N (lit "alse")); lia).
  cbn [Json.scan_once].
  assert ((c =? 34)%N = false) as -> by (apply N.eqb_neq; lia).
  assert ((c =? 123)%N = false) as -> by (apply N.eqb_neq; lia).
  assert ((c =? 91)%N = false) as -> by (apply N.eqb_neq; lia).
  by rewrite Hnull, Htrue, Hfalse, Hnum.
Qed.

Lemma skip_ws_newline_indent level (s : str) :
  Json.skip_ws (Json.newline_indent level ++ s) = Json.skip_ws s.
Proof.
  unfold Json.newline_indent. cbn [app Json.skip_ws Json.is_ws N.eqb Pos.eqb orb].
  induction (2 * level) as [|n IH]; [done|]. exact IH.
Qed.

Lemma skip_ws_non_ws (c : N) (s : str) :
  Json.is_ws c = false → Json.skip_ws (c :: s) = c :: s.
Proof. intros H. simpl. by rewrite H. Qed.

Lemma digit_not_special (c : N) :
  Json.is_digit c = true → Json.is_ws c = false ∧ c ≠ 93%N ∧ c ≠ 125%N.
Proof.
  unfold Json.is_digit, Json.is_ws. intros [?%N.leb_le ?%N.leb_le]%andb_prop.
  repeat split; try lia.
  repeat (apply orb_false_iff; split); apply N.eqb_neq; lia.
Qed.

(** An encoding starts with a character that is neither white space nor a
    closing bracket. *)
Lemma encode_head level v :
  Json.plain v = true →
  ∃ c t, Json.encode level v = c :: t ∧ Json.is_ws c = false
         ∧ c ≠ 93%N ∧ c ≠ 125%N.
Proof.
  intros Hv. destruct v as [|[]|z|x|s|[|x l]|[|[k x] d]]; try discriminate Hv;
    try (eexists _, _; split; [reflexivity|]; split; [reflexivity|]; split; discriminate).
  destruct z as [|p|p].
  - eexists _, _; split; [reflexivity|]. split; [reflexivity|]. split; discriminate.
  - destruct (encode_nat_spec (N.pos p)) as (Hdig & _ & c & ds' & Hds & _).
    exists c, ds'. split; [done|]. apply digit_not_special.
    cbv zeta in Hdig. rewrite Hds in Hdig. simpl in Hdig.
    by apply andb_prop in Hdig as [? _].
  - eexists _, _; split; [reflexivity|]. split; [reflexivity|]. split; discriminate.
Qed.

Lemma skip_ws_encode level v (rest : str) :
  Json.plain v = true →
  Json.skip_ws (Json.encode level v ++ rest) = Json.encode level v ++ rest.
Proof.
  intros (c & t & -> & Hc & _)%(encode_head level). by apply skip_ws_non_ws.
Qed.

Lemma dict_set_fresh (k : str) v (acc : list (str * Json.value)) :
  k ∉ List.map fst acc → Json.dict_set k v acc = acc ++ [(k, v)].
Proof.
  induction acc as [|[k' v'] acc IH]; intros Hk; simpl; [done|].
  simpl in Hk. apply not_elem_of_cons in Hk as [Hne Hk].
  destruct (decide (k = k')); [done|]. by rewrite IH.
Qed.

(** The loop of [JSONArray] over the encoded items. *)
Lemma scan_items_encoded level (l : list Json.value) :
  Forall Json.reads_back l → forallb Json.plain l = true →
  ∀ x acc (rest : str) fuel,
    Json.reads_back x → Json.plain x = true →
    list_sum (List.map (λ y, S (Json.calls y)) (x :: l)) ≤ fuel →
    Json.scan_items fuel
      (Json.encode (S level) x
       ++ flat_map (λ y, lit "," ++ Json.newline_indent (S level)
                         ++ Json.encode (S level) y) l
       ++ Json.newline_indent level ++ lit "]" ++ rest) acc
    = Ok (Json.Arr (rev acc ++ x :: l), rest).
Proof.
  induction l as [|y l IH]; intros Hall Hplain x acc rest fuel Hx Hpx Hfuel.
  - simpl in Hfuel. destruct fuel as [|fuel]; [lia|].
    rewrite scan_items_S. cbn [flat_map app].
    rewrite Hx; [|reflexivity|lia]. cbn [obind].
    rewrite skip_ws_newline_indent.
    change (lit "]" ++ rest) with (93%N :: rest).
    rewrite skip_ws_non_ws by reflexivity. by cbn.
  - simpl in Hfuel. destruct fuel as [|fuel]; [lia|].
    apply Forall_cons in Hall as [Hy Hall]. simpl in Hplain.
    apply andb_prop in Hplain as [Hpy Hplain].
    rewrite scan_items_S. cbn [flat_map]. rewrite <-!app_assoc.
    rewrite Hx; [|reflexivity|lia]. cbn [obind].
    change (lit "," ++ ?s) with (44%N :: s).
    rewrite skip_ws_non_ws by reflexivity. cbn [N.eqb Pos.eqb].
    rewrite skip_ws_newline_indent, skip_ws_encode by done.
    rewrite IH; [|done|done|done|done|simpl in *; lia].
    simpl. by rewrite <-app_assoc.
Qed.

(** The loop of [JSONObject] over the encoded members. *)
Lemma scan_pairs_encoded level (d : list (str * Json.value)) :
  Forall (λ kv, Json.reads_back kv.2) d →
  forallb (λ kv, Json.plain kv.2) d = true →
  ∀ k x acc (rest : str) fuel,
    Json.reads_back x → Json.plain x = true →
    NoDup (List.map fst (acc ++ (k, x) :: d)) →
    list_sum (List.map (λ kv, S (Json.calls kv.2)) ((k, x) :: d)) ≤ fuel →
    Json.scan_pairs fuel
      (Json.encode_string k ++ lit ": " ++ Json.encode (S level) x
       ++ flat_map (λ kv, lit "," ++ Json.newline_indent (S level)
                          ++ Json.encode_string kv.1 ++ lit ": "
                          ++ Json.encode (S level) kv.2) d
       ++ Json.newline_indent level ++ lit "}" ++ rest) acc
    = Ok (Json.Obj (acc ++ (k, x) :: d), rest).
Proof.
  induction d as [|[k' y] d IH];
    intros Hall Hplain k x acc rest fuel Hx Hpx Hnd Hfuel.
  - simpl in Hfuel. destruct fuel as [|fuel]; [lia|].
    unfold Json.encode_string. cbn [flat_map]. rewrite <-!app_assoc.
    change ([34%N] ++ ?s) with (34%N :: s) at 1.
    rewrite scan_pairs_S, scan_string_encoded. cbn [obind rev app].
    change (lit ": " ++ ?s) with (58%N :: 32%N :: s).
    rewrite skip_ws_non_ws by reflexivity. cbn [N.eqb Pos.eqb].
    change (Json.skip_ws (32%N :: ?s)) with (Json.skip_ws s).
    rewrite skip_ws_encode by done.
    rewrite Hx; [|reflexivity|lia]. cbn [obind].
    rewrite skip_ws_newline_indent.
    change (lit "}" ++ rest) with (125%N :: rest).
    rewrite skip_ws_non_ws by reflexivity. cbn [N.eqb Pos.eqb].
    rewrite dict_set_fresh; [done|].
    rewrite map_app in Hnd. apply NoDup_app in Hnd as (_ & Hnd & _).
    intros Hin. apply (Hnd k Hin). simpl. left.
  - simpl in Hfuel. destruct fuel as [|fuel]; [lia|].
    apply Forall_cons in Hall as [Hy Hall]. simpl in Hplain, Hy.
    apply andb_prop in Hplain as [Hpy Hplain].
    assert (k ∉ List.map fst acc) as Hfresh.
    { rewrite map_app in Hnd. apply NoDup_app in Hnd as (_ & Hnd & _).
      intros Hin. apply (Hnd k Hin). simpl. left. }
    pose proof (IH Hall Hplain k' y (acc ++ [(k, x)]) rest fuel Hy Hpy) as IH'.
    rewrite <-!app_assoc in IH'. cbn [app] in IH'.
    unfold Json.encode_string at 1. cbn [flat_map fst snd]. rewrite <-!app_assoc.
    change ([34%N] ++ ?s) with (34%N :: s) at 1.
    rewrite scan_pairs_S, scan_string_encoded. cbn [obind rev app].
    change (lit ": " ++ ?s) with (58%N :: 32%N :: s) at 1.
    rewrite skip_ws_non_ws by reflexivity. cbn [N.eqb Pos.eqb].
    change (Json.skip_ws (32%N :: ?s)) with (Json.skip_ws s).
    rewrite skip_ws_encode by done.
    rewrite Hx; [|reflexivity|lia]. cbn [obind].
    change (lit "," ++ ?s) with (44%N :: s) at 1.
    rewrite skip_ws_non_ws by reflexivity. cbn [N.eqb Pos.eqb].
    rewrite skip_ws_newline_indent.
    rewrite dict_set_fresh by done.
    assert (∀ s : str, Json.skip_ws (Json.encode_string k' ++ s)
                       = Json.encode_string k' ++ s) as -> by done.
    apply IH'; [done|simpl in *; lia].
Qed.

Lemma encode_int_head (z : Z) :
  ∃ c t, Json.encode_int z = c :: t ∧ (c = 45%N ∨ Json.is_digit c = true).
Proof.
  destruct z as [|p|p].
  - exists 48%N, []. by auto.
  - destruct (encode_nat_spec (N.pos p)) as (Hdig & _ & c & ds' & Hds & _).
    exists c, ds'. split; [done|right].
    cbv zeta in Hdig. rewrite Hds in Hdig. simpl in Hdig.
    by apply andb_prop in Hdig as [? _].
  - eexists _, _. split; [reflexivity|by left].
Qed.

Lemma Forall_reads_back (l : list Json.value) :
  Forall (λ v, Json.plain v = true → Json.reads_back v) l →
  forallb Json.plain l = true → Forall Json.reads_back l.
Proof.
  induction 1 as [|v l Hv _ IH]; intros Hp; [constructor|].
  simpl in Hp. apply andb_prop in Hp as [? ?]. constructor; auto.
Qed.

(** Every plain value is read back from its encoding. *)
Lemma reads_back_plain v : Json.plain v = true → Json.reads_back v.
Proof.
  induction v as [|b|z|x|s|l IH|d IH] using value_induction;
    intros Hp level rest fuel Hend Hfuel.
  - destruct fuel; [simpl in Hfuel; lia|]. reflexivity.
  - destruct fuel; [simpl in Hfuel; lia|]. by destruct b.
  - destruct fuel; [simpl in Hfuel; lia|].
    destruct (encode_int_head z) as (c & t & Heq & Hc).
    cbn [Json.encode]. pose proof (scan_number_encode_int z rest Hend) as Hnum.
    rewrite Heq in *. by apply scan_once_number.
  - discriminate Hp.
  - destruct fuel; [simpl in Hfuel; lia|].
    cbn [Json.encode]. unfold Json.encode_string. rewrite <-!app_assoc.
    change ([34%N] ++ ?s) with (34%N :: s) at 1.
    by rewrite scan_once_string, scan_string_encoded.
  - destruct l as [|x l].
    { destruct fuel; [simpl in Hfuel; lia|]. reflexivity. }
    cbn [Json.plain forallb] in Hp. apply andb_prop in Hp as [Hpx Hpl].
    apply Forall_cons in IH as [IHx IHl].
    cbn [Json.calls] in Hfuel. destruct fuel as [|fuel]; [lia|].
    cbn [Json.encode]. rewrite <-!app_assoc.
    change (lit "[" ++ ?s) with (91%N :: s).
    rewrite scan_once_array, skip_ws_newline_indent, skip_ws_encode by done.
    destruct (encode_head (S level) x Hpx) as (c & t & Heq & _ & H93 & _).
    pose proof (scan_items_encoded level l (Forall_reads_back _ IHl Hpl) Hpl
                  x [] rest fuel (IHx Hpx) Hpx ltac:(lia)) as Hitems.
    rewrite Heq in *. cbn [app] in *. apply N.eqb_neq in H93. by rewrite H93.
  - destruct d as [|[k x] d].
    { destruct fuel; [simpl in Hfuel; lia|]. reflexivity. }
    cbn [Json.plain forallb] in Hp. apply andb_prop in Hp as [Hnd Hp].
    apply bool_decide_eq_true in Hnd.
    apply andb_prop in Hp as [Hpx Hpd]. cbn [snd] in Hpx.
    apply Forall_cons in IH as [IHx IHd]. cbn [snd] in IHx.
    cbn [Json.calls] in Hfuel. destruct fuel as [|fuel]; [lia|].
    cbn [Json.encode]. rewrite <-!app_assoc.
    change (lit "{" ++ ?s) with (123%N :: s).
    rewrite scan_once_object, skip_ws_newline_indent.
    assert (Forall (λ kv : str * Json.value, Json.reads_back kv.2) d) as Hall.
    { clear -IHd Hpd. induction IHd as [|kv d Hkv _ IH]; [constructor|].
      simpl in Hpd. apply andb_prop in Hpd as [? ?]. constructor; auto. }
    pose proof (scan_pairs_encoded level d Hall Hpd k x [] rest fuel
                  (IHx Hpx) Hpx Hnd ltac:(lia)) as Hpairs.
    unfold Json.encode_string at 1 in Hpairs. rewrite <-!app_assoc in Hpairs.
    unfold Json.encode_string at 1. rewrite <-!app_assoc.
    change ([34%N] ++ ?s) with (34%N :: s) at 1.
    change ([34%N] ++ ?s) with (34%N :: s) in Hpairs at 1.
    rewrite skip_ws_non_ws by reflexivity. cbn [N.eqb Pos.eqb]. exact Hpairs.
Qed.

Lemma length_flat_map_ge {A} (f : A → str) (g : A → nat) (l : list A) :
  Forall (λ x, g x ≤ length (f x)) l →
  list_sum (List.map g l) ≤ length (flat_map f l).
Proof.
  induction 1 as [|x l Hx _ IH]; simpl; [done|].
  rewrite length_app. lia.
Qed.

Lemma calls_le_length v :
  Json.plain v = true → ∀ level, Json.calls v ≤ length (Json.encode level v).
Proof.
  induction v as [|b|z|x|s|l IH|d IH] using value_induction; intros Hp level.
  - simpl. lia.
  - destruct b; simpl; lia.
  - destruct (encode_int_head z) as (c & t & Heq & _). simpl. rewrite Heq. simpl. lia.
  - discriminate Hp.
  - simpl. lia.
  - destruct l as [|x l]; [simpl; lia|].
    cbn [Json.plain forallb] in Hp. apply andb_prop in Hp as [Hpx Hpl].
    apply Forall_cons in IH as [IHx IHl].
    cbn [Json.calls Json.encode List.map list_sum].
    rewrite !length_app. specialize (IHx Hpx (S level)).
    assert (list_sum (List.map (λ y, S (Json.calls y)) l)
            ≤ length (flat_map (λ y, lit "," ++ Json.newline_indent (S level)
                                     ++ Json.encode (S level) y) l)) as Hsum.
    { apply length_flat_map_ge.
      clear -IHl Hpl. induction IHl as [|y l Hy _ IH]; [constructor|].
      simpl in Hpl. apply andb_prop in Hpl as [? ?]. constructor; [|auto].
      rewrite !length_app. specialize (Hy ltac:(done) (S level)). simpl. lia. }
    set (n := length (flat_map _ l)) in *. clearbody n. simpl. lia.
  - destruct d as [|[k x] d]; [simpl; lia|].
    cbn [Json.plain forallb] in Hp. apply andb_prop in Hp as [_ Hp].
    apply andb_prop in Hp as [Hpx Hpd]. cbn [snd] in Hpx.
    apply Forall_cons in IH as [IHx IHd]. cbn [snd] in IHx.
    cbn [Json.calls Json.encode List.map list_sum snd].
    rewrite !length_app. specialize (IHx Hpx (S level)).
    assert (list_sum (List.map (λ kv : str * Json.value, S (Json.calls kv.2)) d)
            ≤ length (flat_map (λ kv : str * Json.value,
                         lit "," ++ Json.newline_indent (S level)
                         ++ Json.encode_string kv.1 ++ lit ": "
                         ++ Json.encode (S level) kv.2) d)) as Hsum.
    { apply length_flat_map_ge.
      clear -IHd Hpd. induction IHd as [|y l Hy _ IH]; [constructor|].
      simpl in Hpd. apply andb_prop in Hpd as [? ?]. constructor; [|auto].
      rewrite !length_app. specialize (Hy ltac:(done) (S level)). simpl. lia. }
    set (n := length (flat_map _ d)) in *. clearbody n. simpl. lia.
Qed.

(** [json.loads(json.dumps(v, ensure_ascii=False, indent=2))] is [v]. *)
Lemma loads_dumps v : Json.plain v = true → Json.loads (Json.dumps v) = Ok v.
Proof.
  intros Hp. unfold Json.loads, Json.dumps.
  rewrite <-(app_nil_r (Json.encode 0 v)) at 2.
  rewrite skip_ws_encode by done.
  rewrite (reads_back_plain v Hp 0 []); [done|done|].
  pose proof (calls_le_length v Hp 0). lia.
Qed.

(** ** The artifact store *)

Lemma plain_make_result video_id original korean summary processed_at :
  Json.plain (make_result video_id original korean summary processed_at)
  = Json.plain summary.
Proof.
  unfold make_result. cbn [Json.plain forallb snd List.map fst].
  rewrite bool_decide_eq_true_2 by compute_done.
  cbn. by rewrite andb_true_r.
Qed.







(** ** The order on strings *)

Lemma str_ltb_irrefl (a : str) : str_ltb a a = false.
Proof.
  induction a as [|x a IH]; [done|]. simpl.
  rewrite N.ltb_irrefl, N.eqb_refl. by rewrite IH.
Qed.

Lemma str_ltb_trans (a b c : str) :
  str_ltb a b = true → str_ltb b c = true → str_ltb a c = true.
Proof.
  revert b c. induction a as [|x a IH]; intros [|y b] [|z c]; simpl; try done.
  intros Hab Hbc.
  apply orb_true_iff in Hab as [Hxy|[Hxy Hab]%andb_prop];
    apply orb_true_iff in Hbc as [Hyz|[Hyz Hbc]%andb_prop];
    apply orb_true_iff.
  - left. apply N.ltb_lt in Hxy, Hyz. apply N.ltb_lt. lia.
  - left. apply N.ltb_lt in Hxy. apply N.eqb_eq in Hyz. apply N.ltb_lt. lia.
  - left. apply N.eqb_eq in Hxy. apply N.ltb_lt in Hyz. apply N.ltb_lt. lia.
  - right. apply N.eqb_eq in Hxy, Hyz. subst. rewrite N.eqb_refl. simpl. eauto.
Qed.

(** Two strings are equal, or one is smaller. *)
Lemma str_ltb_trichotomy (a b : str) :
  str_ltb a b = false → a = b ∨ str_ltb b a = true.
Proof.
  revert b. induction a as [|x a IH]; intros [|y b]; simpl; try done; auto.
  intros [Hxy Hab]%orb_false_iff.
  apply N.ltb_ge in Hxy.
  destruct (N.eqb_spec x y) as [->|Hne].
  - simpl in Hab. destruct (IH _ Hab) as [->|Hba]; [by left|right].
    by rewrite N.eqb_refl, Hba, orb_true_r.
  - right. apply orb_true_iff. left. apply N.ltb_lt. lia.
Qed.

Lemma str_ltb_asym (a b : str) : str_ltb a b = true → str_ltb b a = false.
Proof.
  intros Hab. destruct (str_ltb b a) eqn:Hba; [|done].
  by rewrite <-(str_ltb_irrefl a), <-(str_ltb_trans _ _ _ Hab Hba).
Qed.

Lemma str_ge_trans (a b c : str) :
  str_ltb a b = false → str_ltb b c = false → str_ltb a c = false.
Proof.
  intros Hab Hbc. destruct (str_ltb a c) eqn:Hac; [|done].
  destruct (str_ltb_trichotomy _ _ Hab) as [->|Hba]; [congruence|].
  by rewrite (str_ltb_trans _ _ _ Hba Hac) in Hbc.
Qed.

Lemma str_ge_antisym (a b : str) :
  str_ltb a b = false → str_ltb b a = false → a = b.
Proof.
  intros Hab Hba. destruct (str_ltb_trichotomy _ _ Hab) as [|H]; [done|congruence].
Qed.

(** ** [sorted(..., reverse=True)] on string keys *)

Section SortedFacts.
Context {A : Type} (key : A → Json.value).

Lemma insert_desc_text (x : A) (l : list A) :
  (∃ t, key x = Json.Str t) → Forall (λ y, ∃ t, key y = Json.Str t) l →
  StronglySorted (not_older key) l →
  ∃ out, insert_desc key x l = Ok out ∧ out ≡ₚ x :: l
         ∧ StronglySorted (not_older key) out.
Proof.
  intros [tx Hx] Hall Hsorted. induction l as [|y l IH].
  - exists [x]. repeat split; [done|]. by repeat constructor.
  - apply Forall_cons in Hall as [[ty Hy] Hall].
    apply StronglySorted_inv in Hsorted as [Hsl Hyl].
    cbn [insert_desc]. rewrite Hx, Hy. cbn [py_lt obind].
    destruct (str_ltb tx ty) eqn:Hlt.
    + destruct (IH Hall Hsl) as (out & -> & Hperm & Hout). cbn [obind].
      exists (y :: out). split; [done|]. split.
      { rewrite Hperm. apply perm_swap. }
      constructor; [done|]. rewrite Hperm. constructor; [|done].
      exists ty, tx. repeat split; [done..|]. by apply str_ltb_asym.
    + exists (x :: y :: l). split; [done|]. split; [done|].
      constructor; [by constructor|].
      constructor; [by exists tx, ty|].
      eapply Forall_impl; [exact Hyl|].
      intros z (ty' & tz & Hy' & Hz & Hyz). rewrite Hy in Hy'.
      injection Hy' as <-. exists tx, tz. repeat split; [done..|].
      by apply (str_ge_trans _ ty).
Qed.

Lemma sorted_desc_text (l : list A) :
  Forall (λ y, ∃ t, key y = Json.Str t) l →
  ∃ out, sorted_desc key l = Ok out ∧ out ≡ₚ l
         ∧ StronglySorted (not_older key) out.
Proof.
  induction l as [|x l IH]; intros Hall.
  - exists []. repeat split; [done|]. constructor.
  - apply Forall_cons in Hall as [Hx Hall].
    destruct (IH Hall) as (out & Hout & Hperm & Hsorted).
    cbn [sorted_desc]. rewrite Hout. cbn [obind].
    destruct (insert_desc_text x out Hx) as (out' & -> & Hperm' & Hsorted');
      [by rewrite Hperm|done|].
    exists out'. split; [done|]. split; [|done]. by rewrite Hperm', Hperm.
Qed.
End SortedFacts.

(** ** The listing *)

Lemma for_each_map {A B} (f : A → outcome B) (g : A → B) (l : list A) :
  (∀ x, x ∈ l → f x = Ok (g x)) → for_each f l = Ok (List.map g l).
Proof.
  induction l as [|x l IH]; intros Hf; [done|].
  cbn [for_each List.map]. rewrite Hf by left. cbn [obind].
  rewrite IH; [done|]. intros y Hy. apply Hf. by right.
Qed.

Lemma for_each_raise {A B} (f : A → outcome B) (before after : list A)
    (x : A) (done : list B) (e : exn) :
  for_each f before = Ok done → f x = Raise e →
  for_each f (before ++ x :: after) = Raise e.
Proof.
  revert done. induction before as [|y before IH]; intros done Hb Hx.
  - simpl. by rewrite Hx.
  - simpl in *. destruct (f y) as [b|e']; [|done]. cbn [obind] in *.
    destruct (for_each f before) as [bs|e'] eqn:Hbs; [|done].
    by rewrite (IH bs).
Qed.

Lemma load_all_run (listing : list str) (w : world) :
  load_all listing w = (w, for_each (entry_at (files w)) listing).
Proof.
  induction listing as [|path listing IH]; [done|].
  cbn [load_all for_each]. rewrite bind_eq. unfold read_file, entry_at.
  destruct (files w !! path) as [content|]; [|done].
  rewrite bind_eq. unfold lift at 1.
  destruct (Json.loads content) as [data|e]; [|done]. cbn [obind].
  rewrite bind_eq. unfold lift at 1.
  destruct (project data) as [entry|e]; [|done]. cbn [obind].
  rewrite bind_eq, IH.
  by destruct (for_each _ listing).
Qed.

Lemma list_results_run (listing : list str) (w : world) :
  list_results listing w
  = (w, let* results := for_each (entry_at (files w)) listing in
        sorted_desc processed_at_key results).
Proof.
  unfold list_results. rewrite bind_eq, load_all_run.
  by destruct (for_each _ listing).
Qed.

(** When every listed document yields an entry with a string timestamp, the
    listing is a rearrangement of the entries in which none sorts after a
    later one. *)
Lemma list_results_sorted (listing : list str) (w : world) (entries : list Json.value) :
  for_each (entry_at (files w)) listing = Ok entries →
  Forall (λ x, ∃ t, processed_at_key x = Json.Str t) entries →
  ∃ out, list_results listing w = (w, Ok out) ∧ out ≡ₚ entries
         ∧ StronglySorted (not_older processed_at_key) out.
Proof.
  intros Hentries Hkeys. rewrite list_results_run, Hentries. cbn [obind].
  destruct (sorted_desc_text processed_at_key entries Hkeys)
    as (out & -> & Hperm & Hsorted).
  by exists out.
Qed.





(** C9: three stored documents whose timestamps are strictly increasing,
    enumerated by the directory in any order, are listed newest first. *)
Theorem list_results_newest_first (w : world) (listing : list str)
    (p1 p2 p3 : str) (e1 e2 e3 : Json.value) (t1 t2 t3 : str) :
  listing ≡ₚ [p1; p2; p3] →
  entry_at (files w) p1 = Ok e1 →
  entry_at (files w) p2 = Ok e2 →
  entry_at (files w) p3 = Ok e3 →
  processed_at_key e1 = Json.Str t1 →
  processed_at_key e2 = Json.Str t2 →
  processed_at_key e3 = Json.Str t3 →
  str_ltb t1 t2 = true → str_ltb t2 t3 = true →
  list_results listing w = (w, Ok [e3; e2; e1]).
Proof.
  intros Hperm H1 H2 H3 K1 K2 K3 H12 H23.
  pose proof (str_ltb_trans _ _ _ H12 H23) as H13.
  set (g := λ p, match entry_at (files w) p with Ok e => e | Raise _ => Json.Null end).
  assert (for_each (entry_at (files w)) listing = Ok (List.map g listing)) as Hload.
  { apply for_each_map. intros p Hp. rewrite Hperm in Hp. unfold g.
    apply elem_of_cons in Hp as [->|Hp]; [by rewrite H1|].
    apply elem_of_cons in Hp as [->|Hp]; [by rewrite H2|].
    apply list_elem_of_singleton in Hp as ->. by rewrite H3. }
  assert (List.map g listing ≡ₚ [e1; e2; e3]) as Hentries.
  { change (List.map g listing) with (g <$> listing). rewrite Hperm.
    unfold g. cbn. by rewrite H1, H2, H3. }
  destruct (list_results_sorted listing w _ Hload) as (out & -> & Hout & Hsorted).
  { rewrite Hentries. repeat constructor; eauto. }
  do 2 f_equal.
  apply (StronglySorted_unique_strong (not_older processed_at_key)); [|done| |].
  - intros x1 x2 Hx1 Hx2 (a & b & Ka & Kb & Hab) (b' & a' & Kb' & Ka' & Hba).
    rewrite Ka in Ka'. rewrite Kb in Kb'. injection Ka' as <-. injection Kb' as <-.
    pose proof (str_ge_antisym _ _ Hab Hba) as ->.
    rewrite Hout, Hentries in Hx1.
    assert (∀ x, x ∈ [e1; e2; e3] → processed_at_key x = Json.Str b →
                 (x = e1 ∧ b = t1) ∨ (x = e2 ∧ b = t2) ∨ (x = e3 ∧ b = t3)) as Hcase.
    { intros x Hx Kx.
      apply elem_of_cons in Hx as [->|Hx]; [left; split; congruence|].
      apply elem_of_cons in Hx as [->|Hx]; [right; left; split; congruence|].
      apply list_elem_of_singleton in Hx as ->. right; right; split; congruence. }
    assert (x2 ∈ [e1; e2; e3]) as Hx2'.
    { apply elem_of_cons in Hx2 as [->|Hx2]; [by do 2 right; left|].
      apply elem_of_cons in Hx2 as [->|Hx2]; [by right; left|].
      apply list_elem_of_singleton in Hx2 as ->. by left. }
    destruct (Hcase x1 Hx1 Ka) as [[-> E1]|[[-> E1]|[-> E1]]];
      destruct (Hcase x2 Hx2' Kb) as [[-> E2]|[[-> E2]|[-> E2]]];
      first [reflexivity
            |exfalso; rewrite E1 in E2; rewrite E2 in *;
             rewrite str_ltb_irrefl in *; discriminate].
  - assert (not_older processed_at_key e3 e2) as R32.
    { exists t3, t2. split; [done|]. split; [done|]. by apply str_ltb_asym. }
    assert (not_older processed_at_key e3 e1) as R31.
    { exists t3, t1. split; [done|]. split; [done|]. by apply str_ltb_asym. }
    assert (not_older processed_at_key e2 e1) as R21.
    { exists t2, t1. split; [done|]. split; [done|]. by apply str_ltb_asym. }
    apply SSorted_cons; [apply SSorted_cons; [apply SSorted_cons|]|].
    + apply SSorted_nil.
    + apply Forall_nil_2.
    + apply Forall_cons_2; [assumption|apply Forall_nil_2].
    + apply Forall_cons_2; [assumption|].
      apply Forall_cons_2; [assumption|apply Forall_nil_2].
  - rewrite Hout, Hentries. exact (Permutation_rev [e1; e2; e3]).
Qed.

Lemma list_results_newest_first_witness :
  let doc id t := Json.dumps (make_result id (lit "Hello") (lit "annyeong")
                                (Json.Obj []) t) in
  let entry id t := Json.Obj [ (lit "video_id", Json.Str id);
                               (lit "one_liner", Json.Str []);
                               (lit "tags", Json.Arr []);
                               (lit "processed_at", Json.Str t) ] in
  let fs : gmap str str :=
    <[lit "aaaaaaaaaaa.json" := doc (lit "aaaaaaaaaaa") (lit "2024-05-01T12:00:00")]>
      (<[lit "bbbbbbbbbbb.json" := doc (lit "bbbbbbbbbbb") (lit "2024-05-02T09:30:00.250000")]>
         (<[lit "ccccccccccc.json" := doc (lit "ccccccccccc") (lit "2024-05-02T09:30:01")]> ∅)) in
  list_results [lit "bbbbbbbbbbb.json"; lit "ccccccccccc.json"; lit "aaaaaaaaaaa.json"]
    (World ∅ fs [])
  = (World ∅ fs [],
     Ok [ entry (lit "ccccccccccc") (lit "2024-05-02T09:30:01");
          entry (lit "bbbbbbbbbbb") (lit "2024-05-02T09:30:00.250000");
          entry (lit "aaaaaaaaaaa") (lit "2024-05-01T12:00:00") ]).
Proof.
  intros doc entry fs.
  apply (list_results_newest_first (World ∅ fs []) _
           (lit "aaaaaaaaaaa.json") (lit "bbbbbbbbbbb.json") (lit "ccccccccccc.json")
           _ _ _
           (lit "2024-05-01T12:00:00") (lit "2024-05-02T09:30:00.250000")
           (lit "2024-05-02T09:30:01")).
  - etrans; [apply perm_skip, Permutation_swap|apply Permutation_swap].
  - vm_compute. reflexivity.
  - vm_compute. reflexivity.
  - vm_compute. reflexivity.
  - reflexivity.
  - reflexivity.
  - reflexivity.
  - reflexivity.
  - reflexivity.
Defined.

(** ** The registry entry a run leaves behind *)

(** [process_video] on an identifier the registry does not hold: the first
    assignment raises [KeyError], the [except] clause runs into the same
    [KeyError], and this second exception leaves the task.  Nothing is
    written and no call is made. *)
Theorem process_video_unknown_job (sv : services) (job_id url : str) (w : world) :
  jobs w !! job_id = None →
  ∃ e, process_video sv job_id url w = (w, Raise e) ∧ exn_kind_of e = KeyError.
Proof.
  intros H. exists (Exn KeyError (py_repr job_id)). split; [|done].
  unfold process_video, try_except, process_video_body.
  rewrite bind_eq. unfold set_job at 1. rewrite H.
  rewrite bind_eq. unfold set_job at 1. by rewrite H.
Qed.

Lemma process_video_unknown_job_witness :
  ∃ e, process_video (stub (fun _ => Ok []) (fun _ => Ok [])) (lit "0a1b2c3d")
         (lit "dQw4w9WgXcQ") empty_world
       = (empty_world, Raise e)
    ∧ exn_kind_of e = KeyError.
Proof. apply process_video_unknown_job. reflexivity. Defined.

(** Without an API key the run ends at once: the entry is [failed] with the
    message of the [ValueError], it still has no identifier and keeps its
    former step, no file is written and no service is called. *)
Theorem process_video_missing_key (sv : services) (job_id url : str) (w : world)
    (j : Job.t) :
  jobs w !! job_id = Some j →
  api_key_missing sv = true →
  let jf := Job.set_error (Some missing_key_message) (Job.set_status failed j) in
  process_video sv job_id url w
  = (World (<[job_id := jf]> (jobs w)) (files w)
       (log w ++ [ ESet job_id (Job.Status processing) (Job.set_status processing j);
                   ESet job_id (Job.Status failed) (Job.set_status failed j);
                   ESet job_id (Job.Error missing_key_message) jf ]),
     Ok tt).
Proof.
  intros Hj Hkey jf. rewrite (process_video_run _ _ _ _ j Hj).
  unfold process_video_events, handler_events, body_last, body_outcome, body_events.
  rewrite Hkey. simpl. rewrite !decide_True by done. simpl.
  unfold replay, apply_event. simpl. f_equal. f_equal.
  - rewrite !insert_insert_eq. by destruct j.
  - rewrite <-!app_assoc. by destruct j.
Qed.

Lemma process_video_missing_key_witness :
  let sv := Services None (fun _ _ => Ok []) (fun _ _ _ => Ok []) [] [] []
              (fun _ _ _ => []) (lit "output") in
  (process_video sv (lit "job") (lit "dQw4w9WgXcQ")
     (World (<[lit "job" := fresh_job]> ∅) ∅ [])).2 = Ok tt.
Proof.
  intros sv.
  rewrite (process_video_missing_key sv (lit "job") (lit "dQw4w9WgXcQ") _ fresh_job);
    [reflexivity|apply lookup_insert_eq|reflexivity].
Defined.

Lemma stages_Ok sv url video_id original korean summary :
  stages sv url = Ok (video_id, original, korean, summary) →
  extract_video_id url = Ok video_id ∧ transcript_of sv video_id = Ok original
  ∧ translation_of sv original = Ok korean ∧ summary_of sv korean = Ok summary.
Proof.
  unfold stages. destruct (extract_video_id url) as [v|]; [|done]. cbn [obind].
  destruct (transcript_of sv v) as [o|] eqn:Ho; [|done]. cbn [obind].
  destruct (translation_of sv o) as [k|] eqn:Hk; [|done]. cbn [obind].
  destruct (summary_of sv k) as [s|] eqn:Hs; [|done]. cbn [obind].
  intros [= <- <- <- <-]. done.
Qed.





Lemma snapshots_app job_id l1 l2 :
  snapshots job_id (l1 ++ l2) = snapshots job_id l1 ++ snapshots job_id l2.
Proof.
  induction l1 as [|e l1 IH]; [done|].
  destruct e; simpl; try done; destruct (decide _); simpl; by rewrite IH.
Qed.

Lemma snapshots_calls job_id l : forallb is_call l = true → snapshots job_id l = [].
Proof.
  induction l as [|e l IH]; [done|]. simpl. intros [He Hl]%andb_prop.
  destruct e; try done; by apply IH.
Qed.

(** The events of a run assign to the run's own entry only. *)
Lemma process_video_events_own sv job_id url j other :
  other ≠ job_id → snapshots other (process_video_events sv job_id url j) = [].
Proof.
  intros Hne. assert (job_id ≠ other) as Hne' by done.
  unfold process_video_events. rewrite snapshots_app.
  assert (snapshots other (body_events sv job_id url j) = []) as ->.
  { unfold body_events, persist_events. simpl. rewrite decide_False by done.
    destruct (api_key_missing sv); [done|].
    destruct (extract_video_id url) as [video_id|]; [|done].
    simpl. rewrite !decide_False by done. rewrite snapshots_app.
    rewrite snapshots_calls by apply fetch_calls_are_calls. simpl.
    destruct (transcript_of sv video_id) as [original|]; [|done].
    simpl. rewrite decide_False by done.
    destruct (translation_of sv original) as [korean|]; [|done].
    simpl. rewrite decide_False by done.
    destruct (summary_of sv korean) as [summary|]; [|done].
    simpl. rewrite decide_False by done.
    destruct (generate_html sv video_id korean summary); [|done].
    simpl. by rewrite !decide_False by done. }
  destruct (body_outcome sv url); [done|].
  unfold handler_events. simpl. by rewrite !decide_False by done.
Qed.

Lemma files_replay_app_no_write l1 l2 w :
  forallb (λ e, negb (is_file_write e)) l2 = true →
  files (replay (l1 ++ l2) w) = files (replay l1 w).
Proof. intros H. rewrite replay_app. by apply files_replay_no_write. Qed.

(** What a run leaves alone: every other entry of the registry, and every
    file but the two named after the extracted identifier. *)
Theorem process_video_frame (sv : services) (job_id url : str) (w : world)
    (j : Job.t) :
  jobs w !! job_id = Some j →
  let w' := (process_video sv job_id url w).1 in
  (∀ other, other ≠ job_id → jobs w' !! other = jobs w !! other)
  ∧ (∀ path,
       (∀ video_id, extract_video_id url = Ok video_id →
                    path ≠ json_path video_id ∧ path ≠ html_path video_id) →
       files w' !! path = files w !! path).
Proof.
  intros Hj w'. unfold w'. rewrite (process_video_run _ _ _ _ j Hj). cbn [fst].
  split.
  - intros other Hne. rewrite jobs_replay.
    by rewrite process_video_events_own.
  - intros path Hpath. unfold process_video_events.
    rewrite files_replay_app_no_write by (by destruct (body_outcome sv url)).
    destruct (api_key_missing sv) eqn:Hkey.
    + unfold body_events. by rewrite Hkey.
    + rewrite (body_events_files _ _ _ _ _ Hkey).
      destruct (stages sv url) as [[[[video_id original] korean] summary]|] eqn:Hst;
        [|done].
      destruct (stages_Ok _ _ _ _ _ _ Hst) as (Hid & _).
      destruct (Hpath video_id Hid) as [Hjson Hhtml]. cbv zeta.
      destruct (generate_html sv video_id korean summary);
        by rewrite !lookup_insert_ne by done.
Qed.

Lemma process_video_frame_witness :
  let sv := stub (fun _ => Ok [lit "Hello"; lit "world"])
              (fun max_tokens => if (max_tokens =? 8192)%N then Ok [lit "annyeong"]
                                 else Ok [lit "{}"]) in
  let w := World (<[lit "job" := fresh_job]> ∅)
             (<[lit "aaaaaaaaaaa.json" := lit "{}"]> ∅) [] in
  files (process_video sv (lit "job") (lit "dQw4w9WgXcQ") w).1 !! lit "aaaaaaaaaaa.json"
  = Some (lit "{}").
Proof.
  intros sv w.
  destruct (process_video_frame sv (lit "job") (lit "dQw4w9WgXcQ") w fresh_job)
    as [_ H]; [apply lookup_insert_eq|].
  rewrite H; [reflexivity|].
  intros video_id [= <-]. split; discriminate.
Defined.

(** ** Polling and reading *)

(** A poll right after a submission reads the fresh entry; a poll of an
    identifier the registry does not hold is a 404; a poll changes
    nothing. *)
Theorem get_status_spec (u : N) (url job_id : str) (w : world) :
  get_status (take 8 (uuid_str u)) (start_translation u url w).1
  = ((start_translation u url w).1, Ok fresh_job)
  ∧ (jobs w !! job_id = None →
     get_status job_id w = (w, Raise (Exn HTTPException job_not_found)))
  ∧ (get_status job_id w).1 = w.
Proof.
  split; [|split].
  - unfold get_status, start_translation, bind, put_job, add_task, ret, emit.
    cbn [fst jobs]. by rewrite lookup_insert_eq.
  - intros H. unfold get_status. by rewrite H.
  - unfold get_status. by destruct (jobs w !! job_id).
Qed.

Lemma get_status_spec_witness :
  get_status (lit "0a1b2c3d") empty_world
  = (empty_world, Raise (Exn HTTPException job_not_found)).
Proof.
  destruct (get_status_spec 0 [] (lit "0a1b2c3d") empty_world) as (_ & H & _).
  apply H. reflexivity.
Defined.



(** ** The command *)


(** ** Rendering the page *)

Lemma for_each_objects (l : list Json.value) :
  Forall (λ p, ∃ f, p = Json.Obj f) l → ∃ ds, for_each get_method l = Ok ds.
Proof.
  intros Hl. induction Hl as [|x l [f ->] _ [ds IH]]; [by exists []|].
  exists (f :: ds). cbn [for_each get_method obind]. by rewrite IH.
Qed.

(** [generate_html] returns the page for every summary object in which
    each of the five list fields is absent or a list, and each key point
    and each quote is an object: no field is required. *)
Theorem generate_html_well_shaped (sv : services) (video_id korean : str)
    (d : list (str * Json.value)) (tags points quotes actions topics : list Json.value) :
  get_default (lit "tags") (Json.Arr []) d = Json.Arr tags →
  get_default (lit "key_points") (Json.Arr []) d = Json.Arr points →
  get_default (lit "quotes") (Json.Arr []) d = Json.Arr quotes →
  get_default (lit "action_items") (Json.Arr []) d = Json.Arr actions →
  get_default (lit "related_topics") (Json.Arr []) d = Json.Arr topics →
  Forall (λ p, ∃ f, p = Json.Obj f) points →
  Forall (λ q, ∃ f, q = Json.Obj f) quotes →
  generate_html sv video_id korean (Json.Obj d)
  = Ok (html_page sv video_id korean (Json.Obj d)).
Proof.
  intros Ht Hp Hq Ha Hr Hpoints Hquotes. unfold generate_html.
  cbn [get_method obind]. rewrite Ht, Hp, Hq, Ha, Hr. cbn [iterate obind].
  destruct (for_each_objects points Hpoints) as [ds1 ->].
  destruct (for_each_objects quotes Hquotes) as [ds2 ->]. done.
Qed.

Lemma generate_html_well_shaped_witness :
  generate_html (stub (fun _ => Ok []) (fun _ => Ok [])) (lit "dQw4w9WgXcQ")
    (lit "annyeong") (Json.Obj [])
  = Ok (lit "<html></html>").
Proof.
  exact (generate_html_well_shaped (stub (fun _ => Ok []) (fun _ => Ok []))
           (lit "dQw4w9WgXcQ") (lit "annyeong") [] [] [] [] [] []
           eq_refl eq_refl eq_refl eq_refl eq_refl (Forall_nil_2 _) (Forall_nil_2 _)).
Defined.

(** A key point that is not an object (a plain string, say) makes
    [generate_html] raise [AttributeError], whatever the rest of the
    summary holds. *)
Theorem generate_html_bad_key_point (sv : services) (video_id korean : str)
    (d : list (str * Json.value)) (tags before after : list Json.value)
    (p : Json.value) :
  get_default (lit "tags") (Json.Arr []) d = Json.Arr tags →
  get_default (lit "key_points") (Json.Arr []) d = Json.Arr (before ++ p :: after) →
  Forall (λ p, ∃ f, p = Json.Obj f) before →
  (∀ f, p ≠ Json.Obj f) →
  generate_html sv video_id korean (Json.Obj d)
  = Raise (Exn AttributeError
             (py_repr (type_name p) ++ lit " object has no attribute 'get'")).
Proof.
  intros Ht Hp Hbefore Hbad. unfold generate_html.
  cbn [get_method obind]. rewrite Ht, Hp. cbn [iterate obind].
  destruct (for_each_objects before Hbefore) as [ds Hds].
  rewrite (for_each_raise _ _ _ _ ds
             (Exn AttributeError
                (py_repr (type_name p) ++ lit " object has no attribute 'get'")));
    [done|done|].
  destruct p; try done. by destruct (Hbad d0).
Qed.

Lemma generate_html_bad_key_point_witness :
  generate_html (stub (fun _ => Ok []) (fun _ => Ok [])) (lit "dQw4w9WgXcQ")
    (lit "annyeong")
    (Json.Obj [(lit "key_points", Json.Arr [Json.Str (lit "be early")])])
  = Raise (Exn AttributeError (lit "'str' object has no attribute 'get'")).
Proof.
  exact (generate_html_bad_key_point (stub (fun _ => Ok []) (fun _ => Ok []))
           (lit "dQw4w9WgXcQ") (lit "annyeong")
           [(lit "key_points", Json.Arr [Json.Str (lit "be early")])]
           [] [] [] (Json.Str (lit "be early")) eq_refl eq_refl (Forall_nil_2 _)
           (fun f H => eq_ind (Json.Str (lit "be early"))
                         (fun v => match v with Json.Str _ => True | _ => False end)
                         I _ H)).
Defined.

(** ** The order of the listing *)

Section SortFacts.
Context {A : Type} (key : A → Json.value).

(** Where [insert_desc] puts an element: behind the elements with a
    strictly larger key that lead the list, and in front of all others. *)
Lemma insert_desc_split (x : A) (l : list A) (tx : str) :
  key x = Json.Str tx → Forall (λ y, ∃ t, key y = Json.Str t) l →
  ∃ pre post, l = pre ++ post ∧ insert_desc key x l = Ok (pre ++ x :: post)
    ∧ Forall (λ y, ∃ t, key y = Json.Str t ∧ str_ltb tx t = true) pre.
Proof.
  intros Hx Hall. induction Hall as [|y l [ty Hy] Hall IH].
  - by exists [], [].
  - cbn [insert_desc]. rewrite Hx, Hy. cbn [py_lt obind].
    destruct (str_ltb tx ty) eqn:Hlt.
    + destruct IH as (pre & post & -> & -> & Hpre). cbn [obind].
      exists (y :: pre), post. split; [done|]. split; [done|].
      apply Forall_cons_2; [by exists ty|done].
    + exists [], (y :: l). split; [done|]. split; [done|]. apply Forall_nil_2.
Qed.

Lemma py_lt_raise (a b : Json.value) (e : exn) :
  py_lt a b = Raise e → exn_kind_of e = TypeError.
Proof. destruct a, b; simpl; by intros [= <-]. Qed.

Lemma insert_desc_raise (x : A) (l : list A) (e : exn) :
  insert_desc key x l = Raise e → exn_kind_of e = TypeError.
Proof.
  induction l as [|y l IH]; [done|]. cbn [insert_desc].
  destruct (py_lt (key x) (key y)) as [[]|e'] eqn:Hlt; cbn [obind].
  - destruct (insert_desc key x l); [done|]. intros [= <-]. by apply IH.
  - done.
  - intros [= <-]. by apply py_lt_raise in Hlt.
Qed.

Lemma sorted_desc_raise (l : list A) (e : exn) :
  sorted_desc key l = Raise e → exn_kind_of e = TypeError.
Proof.
  induction l as [|x l IH]; [done|]. cbn [sorted_desc].
  destruct (sorted_desc key l) as [r|e']; cbn [obind].
  - apply insert_desc_raise.
  - intros [= <-]. by apply IH.
Qed.

Lemma insert_desc_length (x : A) (l out : list A) :
  insert_desc key x l = Ok out → length out = S (length l).
Proof.
  revert out. induction l as [|y l IH]; intros out; [by intros [= <-]|].
  cbn [insert_desc].
  destruct (py_lt (key x) (key y)) as [[]|]; cbn [obind]; [| |done].
  - destruct (insert_desc key x l) as [r|]; [|done]. intros [= <-].
    simpl. by rewrite (IH r).
  - by intros [= <-].
Qed.

Lemma sorted_desc_length (l out : list A) :
  sorted_desc key l = Ok out → length out = length l.
Proof.
  revert out. induction l as [|x l IH]; intros out; [by intros [= <-]|].
  cbn [sorted_desc]. destruct (sorted_desc key l) as [r|]; [|done]. cbn [obind].
  intros H%insert_desc_length. simpl. by rewrite H, (IH r).
Qed.

Lemma py_lt_null (a : Json.value) :
  (∃ e, py_lt Json.Null a = Raise e) ∧ (∃ e, py_lt a Json.Null = Raise e).
Proof. split; destruct a; by eexists. Qed.

(** A key that is [None] among two or more: the sort raises. *)
Lemma sorted_desc_null (l : list A) :
  Exists (λ x, key x = Json.Null) l → 2 ≤ length l →
  ∃ e, sorted_desc key l = Raise e.
Proof.
  induction l as [|x l IH]; intros Hex Hlen; [by apply Exists_nil in Hex|].
  cbn [sorted_desc]. destruct (sorted_desc key l) as [r|e] eqn:Hr;
    [|by exists e].
  cbn [obind]. pose proof (sorted_desc_length _ _ Hr) as Hlr.
  destruct r as [|y r]; [simpl in *; lia|]. cbn [insert_desc].
  apply Exists_cons in Hex as [Hx|Hex].
  - rewrite Hx. destruct (py_lt_null (key y)) as [[e ->] _]. by exists e.
  - destruct l as [|z [|z' l]]; [by apply Exists_nil in Hex| |].
    + apply Exists_cons in Hex as [Hz|Hex]; [|by apply Exists_nil in Hex].
      simpl in Hr. injection Hr as <- <-. rewrite Hz.
      destruct (py_lt_null (key x)) as [_ [e ->]]. by exists e.
    + destruct IH as [e He]; [done|simpl; lia|]. by rewrite He in Hr.
Qed.

Lemma sorted_desc_single (x : A) : sorted_desc key [x] = Ok [x].
Proof. reflexivity. Qed.
End SortFacts.

Lemma stamped_app t l1 l2 : stamped t (l1 ++ l2) = stamped t l1 ++ stamped t l2.
Proof. apply List.filter_app. Qed.

Lemma stamped_larger tx pre :
  Forall (λ y, ∃ s, processed_at_key y = Json.Str s ∧ str_ltb tx s = true) pre →
  stamped tx pre = [].
Proof.
  induction 1 as [|y pre (s & Hy & Hlt) _ IH]; [done|].
  unfold stamped in *. simpl. rewrite Hy, IH.
  rewrite bool_decide_eq_false_2; [done|].
  intros ->. by rewrite str_ltb_irrefl in Hlt.
Qed.

(** The sort is stable: the entries with one and the same timestamp keep
    the order in which they were loaded. *)
Lemma sorted_desc_stable (l out : list Json.value) (t : str) :
  Forall (λ y, ∃ s, processed_at_key y = Json.Str s) l →
  sorted_desc processed_at_key l = Ok out → stamped t out = stamped t l.
Proof.
  intros Hall. revert out. induction Hall as [|x l [tx Hx] Hall IH]; intros out.
  - by intros [= <-].
  - cbn [sorted_desc].
    destruct (sorted_desc_text processed_at_key l Hall) as (r & Hr & Hperm & _).
    rewrite Hr. cbn [obind]. specialize (IH r Hr).
    destruct (insert_desc_split processed_at_key x r tx Hx)
      as (pre & post & -> & -> & Hpre); [by rewrite Hperm|].
    intros [= <-].
    change (x :: l) with ([x] ++ l). change (x :: post) with ([x] ++ post).
    rewrite !stamped_app, <-IH, stamped_app.
    unfold stamped at 2 4. simpl. rewrite Hx.
    destruct (bool_decide (tx = t)) eqn:Htx; [|done].
    apply bool_decide_eq_true in Htx as <-.
    by rewrite (stamped_larger tx pre Hpre).
Qed.

(** Documents with the same timestamp are listed in the order the
    directory yields them. *)
Theorem list_results_stable (listing : list str) (w : world)
    (entries : list Json.value) :
  for_each (entry_at (files w)) listing = Ok entries →
  Forall (λ x, ∃ t, processed_at_key x = Json.Str t) entries →
  ∃ out, list_results listing w = (w, Ok out)
         ∧ ∀ t, stamped t out = stamped t entries.
Proof.
  intros Hentries Hkeys. rewrite list_results_run, Hentries. cbn [obind].
  destruct (sorted_desc_text processed_at_key entries Hkeys) as (out & Hout & _).
  exists out. split; [by rewrite Hout|].
  intros t. by apply sorted_desc_stable.
Qed.

Lemma list_results_stable_witness :
  let doc id := Json.dumps (make_result id (lit "Hello") (lit "annyeong")
                              (Json.Obj []) (lit "2024-05-01T12:00:00")) in
  let fs : gmap str str :=
    <[lit "bbbbbbbbbbb.json" := doc (lit "bbbbbbbbbbb")]>
      (<[lit "aaaaaaaaaaa.json" := doc (lit "aaaaaaaaaaa")]> ∅) in
  ∃ out, list_results [lit "bbbbbbbbbbb.json"; lit "aaaaaaaaaaa.json"] (World ∅ fs [])
         = (World ∅ fs [], Ok out)
    ∧ List.map (λ x, Json.dict_get (lit "video_id")
                       (match x with Json.Obj d => d | _ => [] end))
        (stamped (lit "2024-05-01T12:00:00") out)
      = [Some (Json.Str (lit "bbbbbbbbbbb")); Some (Json.Str (lit "aaaaaaaaaaa"))].
Proof.
  intros doc fs.
  destruct (list_results_stable
              [lit "bbbbbbbbbbb.json"; lit "aaaaaaaaaaa.json"] (World ∅ fs [])
              [ Json.Obj [ (lit "video_id", Json.Str (lit "bbbbbbbbbbb"));
                           (lit "one_liner", Json.Str []);
                           (lit "tags", Json.Arr []);
                           (lit "processed_at", Json.Str (lit "2024-05-01T12:00:00")) ];
                Json.Obj [ (lit "video_id", Json.Str (lit "aaaaaaaaaaa"));
                           (lit "one_liner", Json.Str []);
                           (lit "tags", Json.Arr []);
                           (lit "processed_at", Json.Str (lit "2024-05-01T12:00:00")) ] ])
    as (out & Hrun & Hst).
  - vm_compute. reflexivity.
  - apply Forall_cons_2; [by eexists|]. apply Forall_cons_2; [by eexists|].
    apply Forall_nil_2.
  - exists out. split; [exact Hrun|]. by rewrite Hst.
Defined.

(** A document without a timestamp is listed when it is the only one; next
    to any other document it makes the sort, and with it the listing,
    raise [TypeError]. *)
Theorem list_results_missing_timestamp (listing : list str) (w : world)
    (entries : list Json.value) :
  for_each (entry_at (files w)) listing = Ok entries →
  Exists (λ x, processed_at_key x = Json.Null) entries →
  (length entries = 1 → list_results listing w = (w, Ok entries))
  ∧ (2 ≤ length entries →
     ∃ e, list_results listing w = (w, Raise e) ∧ exn_kind_of e = TypeError).
Proof.
  intros Hentries Hnull. rewrite list_results_run, Hentries. cbn [obind].
  split.
  - intros Hlen. by destruct entries as [|x [|]].
  - intros Hlen.
    destruct (sorted_desc_null processed_at_key entries Hnull Hlen) as [e He].
    exists e. split; [by rewrite He|]. by apply sorted_desc_raise in He.
Qed.

Lemma list_results_missing_timestamp_witness :
  let fs : gmap str str :=
    <[lit "a.json" := lit "{}"]>
      (<[lit "b.json" := Json.dumps (Json.Obj [(lit "processed_at",
                                       Json.Str (lit "2024-05-01T12:00:00"))])]> ∅) in
  ∃ e, list_results [lit "a.json"; lit "b.json"] (World ∅ fs [])
       = (World ∅ fs [], Raise e)
    ∧ exn_kind_of e = TypeError.
Proof.
  intros fs.
  destruct (list_results_missing_timestamp [lit "a.json"; lit "b.json"] (World ∅ fs [])
              [ Json.Obj [ (lit "video_id", Json.Null); (lit "one_liner", Json.Str []);
                           (lit "tags", Json.Arr []); (lit "processed_at", Json.Null) ];
                Json.Obj [ (lit "video_id", Json.Null); (lit "one_liner", Json.Str []);
                           (lit "tags", Json.Arr []);
                           (lit "processed_at", Json.Str (lit "2024-05-01T12:00:00")) ] ])
    as [_ H].
  - vm_compute. reflexivity.
  - apply Exists_cons_hd. reflexivity.
  - apply H. simpl. lia.
Defined.

(** ** More on identifier extraction *)

Lemma token_unmarked (s : str) n t : length s < 13 → ¬ marked_at s n t.
Proof. intros Hlen Hm%marked_at_length. lia. Qed.

(** Whatever [extract_video_id] returns is an eleven-character token, and
    extraction maps that token to itself: the identifier stored in a result
    can be fed back in place of the URL. *)
Theorem extract_video_id_token (url video_id : str) :
  extract_video_id url = Ok video_id →
  is_token video_id = true ∧ extract_video_id video_id = Ok video_id.
Proof.
  unfold extract_video_id at 1. rewrite patterns_eq. cbn [first_match].
  intros Hrun.
  assert (is_token video_id = true) as Htok.
  { destruct (Re.search url_pattern url) as [m|] eqn:Hurl.
    - apply search_from_Some in Hurl as (pre & s' & _ & Hm).
      apply url_pattern_at_Some in Hm as (mark & tok & post & _ & Htok & _ & ->).
      simpl in Hrun. by injection Hrun as <-.
    - rewrite search_bare in Hrun.
      destruct (Re.match_at bare_pattern 0 url) as [m|] eqn:Hm; [|done].
      apply bare_pattern_Some in Hm as (tok & Htok & _ & Hg).
      rewrite Hg in Hrun. simpl in Hrun. by injection Hrun as <-. }
  split; [done|].
  apply is_token_spec in Htok as Htok'. destruct Htok' as [Hlen _].
  unfold extract_video_id. rewrite patterns_eq. cbn [first_match].
  rewrite search_url_None, search_bare by (intros n t; apply token_unmarked; lia).
  by destruct (bare_pattern_token video_id Htok) as [-> _].
Qed.

Lemma extract_video_id_token_witness :
  extract_video_id (lit "dQw4w9WgXcQ") = Ok (lit "dQw4w9WgXcQ").
Proof.
  apply (extract_video_id_token (lit "https://youtu.be/dQw4w9WgXcQ?t=42")).
  vm_compute. reflexivity.
Defined.

(** The length of the identifier is checked for a bare token only.  After a
    marker the first eleven identifier characters are taken, whatever
    follows them; a bare run of twelve identifier characters is rejected. *)
Theorem extract_video_id_length_check (mark tok rest : str) (c : N) :
  In mark markers → is_token tok = true → is_id_char c = true →
  extract_video_id (mark ++ tok ++ rest) = Ok tok
  ∧ extract_video_id (tok ++ [c])
    = Raise (Exn ValueError (invalid_url_prefix ++ tok ++ [c])).
Proof.
  intros Hmark Htok Hc. unfold extract_video_id. rewrite patterns_eq.
  cbn [first_match]. split.
  - unfold Re.search.
    assert (Re.search_from url_pattern 0 (mark ++ tok ++ rest)
            = Some (Re.MState (0 + length mark + 11) rest (Some tok))) as ->; [|done].
    apply (search_from_app url_pattern 0 [] (mark ++ tok ++ rest)).
    + intros p1 p2 Heq Hne. by destruct p1, p2.
    + by apply url_pattern_at_app.
  - apply is_token_spec in Htok as [Hlen _].
    rewrite search_url_None, search_bare
      by (intros n t; apply token_unmarked; rewrite length_app, Hlen; simpl; lia).
    destruct (Re.match_at bare_pattern 0 (tok ++ [c])) as [m|] eqn:Hm; [|done].
    apply bare_pattern_Some in Hm as (tok' & [Hlen' _]%is_token_spec & Hs & _).
    destruct Hs as [Hs|Hs].
    + apply (f_equal length) in Hs. rewrite length_app in Hs. simpl in Hs. lia.
    + apply app_inj_tail in Hs as [_ ->]. done.
Qed.

Lemma extract_video_id_length_check_witness :
  extract_video_id (lit "v=dQw4w9WgXcQdQw4w9WgXcQ") = Ok (lit "dQw4w9WgXcQ")
  ∧ extract_video_id (lit "dQw4w9WgXcQd")
    = Raise (Exn ValueError (invalid_url_prefix ++ lit "dQw4w9WgXcQd")).
Proof.
  apply (extract_video_id_length_check (lit "v=") (lit "dQw4w9WgXcQ")
           (lit "dQw4w9WgXcQ") 100%N); [simpl; auto|reflexivity|reflexivity].
Defined.

(** ** Job identifiers *)

Lemma job_id_hex_fixed (u : N) : take 8 (uuid_str u) = hex_fixed 8 (u / 2 ^ 96).
Proof.
  unfold uuid_str. rewrite take_app_length'
    by (rewrite length_take, length_hex_fixed; lia).
  by rewrite (take_hex_fixed 8 24).
Qed.

Lemma hex_digit_inj (a b : N) :
  (a < 16)%N → (b < 16)%N → Json.hex_digit a = Json.hex_digit b → a = b.
Proof.
  unfold Json.hex_digit. intros Ha Hb.
  destruct (a <? 10)%N eqn:Ea, (b <? 10)%N eqn:Eb;
    rewrite ?N.ltb_lt, ?N.ltb_ge in *; lia.
Qed.

Lemma hex_digit_is_hex (a : N) : (a < 16)%N → is_hex_char (Json.hex_digit a) = true.
Proof.
  unfold Json.hex_digit, is_hex_char. intros Ha.
  destruct (a <? 10)%N eqn:Ea; rewrite ?N.ltb_lt, ?N.ltb_ge in *.
  - apply orb_true_intro. left. apply andb_true_intro.
    split; apply N.leb_le; lia.
  - apply orb_true_intro. right. apply andb_true_intro.
    split; apply N.leb_le; lia.
Qed.

Lemma hex_fixed_is_hex width n : forallb is_hex_char (hex_fixed width n) = true.
Proof.
  revert n. induction width as [|width IH]; intros n; [done|].
  cbn [hex_fixed]. rewrite forallb_app, IH. simpl.
  rewrite hex_digit_is_hex; [done|]. by apply N.mod_lt.
Qed.

Lemma hex_fixed_inj width n m :
  hex_fixed width n = hex_fixed width m ↔
  (n mod 16 ^ N.of_nat width = m mod 16 ^ N.of_nat width)%N.
Proof.
  revert n m. induction width as [|width IH]; intros n m.
  - simpl. by rewrite !N.mod_1_r.
  - cbn [hex_fixed]. rewrite Nat2N.inj_succ, N.pow_succ_r'.
    rewrite !(N.Div0.mod_mul_r _ 16). split.
    + intros [H1 H2]%app_inj_tail. apply IH in H1. rewrite H1.
      apply hex_digit_inj in H2; [|by apply N.mod_lt..]. by rewrite H2.
    + intros H.
      assert (n mod 16 = m mod 16 ∧
              (n / 16) mod 16 ^ N.of_nat width = (m / 16) mod 16 ^ N.of_nat width)%N
        as [H1 H2].
      { pose proof (N.mod_lt n 16). pose proof (N.mod_lt m 16).
        set (a := (n mod 16)%N) in *. set (b := (m mod 16)%N) in *.
        set (x := ((n / 16) mod 16 ^ N.of_nat width)%N) in *.
        set (y := ((m / 16) mod 16 ^ N.of_nat width)%N) in *.
        clearbody a b x y. lia. }
      rewrite H1. f_equal. by apply IH.
Qed.

(** The job identifier consists of eight lowercase hexadecimal digits, and
    two UUIDs give the same identifier exactly when their top 32 bits
    agree: there are no more than 2^32 identifiers. *)
Theorem job_id_collisions (u1 u2 : N) :
  (u1 < 2 ^ 128)%N → (u2 < 2 ^ 128)%N →
  forallb is_hex_char (take 8 (uuid_str u1)) = true
  ∧ (take 8 (uuid_str u1) = take 8 (uuid_str u2) ↔ (u1 / 2 ^ 96 = u2 / 2 ^ 96)%N).
Proof.
  intros H1 H2. rewrite !job_id_hex_fixed. split; [apply hex_fixed_is_hex|].
  rewrite hex_fixed_inj.
  assert (∀ u, u < 2 ^ 128 → (u / 2 ^ 96) mod 16 ^ N.of_nat 8 = u / 2 ^ 96)%N as Hsmall.
  { intros u Hu. apply N.mod_small.
    change (16 ^ N.of_nat 8)%N with (2 ^ 32)%N.
    apply N.Div0.div_lt_upper_bound. by rewrite <-N.pow_add_r. }
  by rewrite !Hsmall.
Qed.

Lemma job_id_collisions_witness :
  take 8 (uuid_str 0x12345678000000000000000000000001)
  = take 8 (uuid_str 0x12345678ffffffffffffffffffffffff).
Proof.
  apply job_id_collisions; [reflexivity..].
Defined.

(** ** Summaries the encoder could have written *)

Lemma digit_not_space (c : N) :
  Json.is_digit c = true → is_space c = false ∧ c ≠ 96%N.
Proof.
  unfold Json.is_digit, is_space. intros [?%N.leb_le ?%N.leb_le]%andb_prop.
  split; [|lia].
  repeat (apply orb_false_iff; split);
    first [apply N.eqb_neq; lia
          |apply andb_false_iff; first [left; apply N.leb_gt; lia
                                       |right; apply N.leb_gt; lia]].
Qed.

Lemma encode_nat_edges (n : N) :
  ∃ c t body c', Json.encode_nat n = c :: t ∧ Json.encode_nat n = body ++ [c']
    ∧ Json.is_digit c = true ∧ Json.is_digit c' = true.
Proof.
  destruct (encode_nat_spec n) as (Hdig & _ & c & ds' & Hds & _).
  cbv zeta in Hdig. rewrite Hds in *. clear Hds.
  destruct (exists_last (l := c :: ds')) as (body & c' & Heq); [done|].
  exists c, ds', body, c'. split; [done|]. split; [done|].
  split.
  - simpl in Hdig. by apply andb_prop in Hdig as [? _].
  - rewrite Heq, forallb_app in Hdig. simpl in Hdig.
    apply andb_prop in Hdig as [_ Hc]. by apply andb_prop in Hc as [? _].
Qed.

(** An encoding neither begins nor ends with white space or a backquote. *)
Lemma encode_edges level v :
  Json.plain v = true →
  (∃ c t, Json.encode level v = c :: t ∧ is_space c = false ∧ c ≠ 96%N)
  ∧ (∃ body c, Json.encode level v = body ++ [c] ∧ is_space c = false ∧ c ≠ 96%N).
Proof.
  intros Hv. destruct v as [|[]|z|x|s|[|x l]|[|[k x] d]]; try discriminate Hv.
  - split; [by eexists _, _|]. by exists (lit "nul"), 108%N.
  - split; [by eexists _, _|]. by exists (lit "tru"), 101%N.
  - split; [by eexists _, _|]. by exists (lit "fals"), 101%N.
  - destruct z as [|p|p].
    + split; [by eexists _, _|]. by exists [], 48%N.
    + destruct (encode_nat_edges (N.pos p)) as (c & t & body & c' & H1 & H2 & Hc & Hc').
      split.
      * exists c, t. split; [done|]. by apply digit_not_space.
      * exists body, c'. split; [done|]. by apply digit_not_space.
    + destruct (encode_nat_edges (N.pos p)) as (c & t & body & c' & H1 & H2 & Hc & Hc').
      split; [by eexists _, _|].
      exists (45%N :: body), c'. split; [|by apply digit_not_space].
      cbn [Json.encode Json.encode_int]. by rewrite H2.
  - split; [by eexists _, _|].
    exists (34%N :: flat_map Json.escape_char s), 34%N. by split.
  - split; [by eexists _, _|]. by exists (lit "["), 93%N.
  - split; [by eexists _, _|]. eexists _, 93%N.
    split; [|done]. cbn [Json.encode]. rewrite !app_assoc. reflexivity.
  - split; [by eexists _, _|]. by exists (lit "{"), 125%N.
  - split; [by eexists _, _|]. eexists _, 125%N.
    split; [|done]. cbn [Json.encode]. rewrite !app_assoc. reflexivity.
Qed.

Lemma strip_prefix_head (a c : N) (p s : str) :
  c ≠ a → strip_prefix (a :: p) (c :: s) = None.
Proof. intros H. cbn [strip_prefix]. by destruct (N.eqb_spec a c) as [<-|]. Qed.

Lemma lstrip_nonspace (c : N) (s : str) : is_space c = false → lstrip (c :: s) = c :: s.
Proof. intros H. simpl. by rewrite H. Qed.

(** Fence stripping leaves an encoding as it is. *)
Lemma strip_fence_dumps v : Json.plain v = true → strip_fence (Json.dumps v) = Json.dumps v.
Proof.
  intros Hv. destruct (encode_edges 0 v Hv) as [(c & t & Hhead & Hc & Hc')
                                                   (body & c' & Hlast & Hl & Hl')].
  unfold Json.dumps. apply strip_fence_plain.
  - unfold strip. rewrite Hhead, lstrip_nonspace by done. rewrite <-Hhead, Hlast.
    by apply rstrip_snoc_nonspace.
  - rewrite Hhead. unfold starts_with.
    change fence_open with (96%N :: lit "``json").
    by rewrite strip_prefix_head.
  - rewrite Hlast. unfold ends_with, starts_with.
    change (rev fence_close) with (96%N :: lit "``").
    rewrite rev_app_distr. cbn [rev app].
    by rewrite strip_prefix_head.
Qed.

(** When the model answers with the exact encoding of a summary, bare or
    inside a [```json] fence, with any white space around, [summarize]
    returns that summary. *)
Theorem summarize_reads_encoding (sv : services) (korean : str) (w : world)
    (v : Json.value) (ws1 ws2 ws3 ws4 : str) (text : str) (more : list str) :
  Json.plain v = true →
  forallb is_space ws1 = true → forallb is_space ws2 = true →
  forallb is_space ws3 = true → forallb is_space ws4 = true →
  text = ws1 ++ Json.dumps v ++ ws4 ∨ text = fenced ws1 ws2 (Json.dumps v) ws3 ws4 →
  messages_create sv 4096 (summarize_prompt sv) (summarize_request ++ korean)
    = Ok (text :: more) →
  (summarize sv korean w).2 = Ok v.
Proof.
  intros Hv H1 H2 H3 H4 Htext Hans.
  rewrite summarize_run. unfold summary_of. rewrite Hans. cbn [snd obind first_text].
  pose proof (strip_fence_dumps v Hv) as Hplain.
  destruct (encode_edges 0 v Hv) as [(c & t & Hhead & Hc & _)
                                       (body & c' & Hlast & Hl & _)].
  assert (strip (Json.dumps v) = Json.dumps v) as Hstrip.
  { unfold Json.dumps, strip. rewrite Hhead, lstrip_nonspace by done.
    rewrite <-Hhead, Hlast. by apply rstrip_snoc_nonspace. }
  assert (strip_fence text = Json.dumps v) as ->; [|by apply loads_dumps].
  destruct Htext as [->| ->].
  - unfold strip_fence in *. rewrite strip_around by done.
    by rewrite Hstrip in Hplain.
  - apply strip_fence_fenced; try done.
    unfold Json.dumps. by rewrite Hhead.
Qed.

Lemma summarize_reads_encoding_witness :
  let v := Json.Obj [(lit "one_liner", Json.Str (lit "hi")); (lit "tags", Json.Arr [])] in
  let sv := stub (fun _ => Ok [])
              (fun _ => Ok [fenced [] [10%N] (Json.dumps v) [10%N] [10%N]]) in
  (summarize sv (lit "annyeong") empty_world).2 = Ok v.
Proof.
  intros v sv.
  apply (summarize_reads_encoding sv (lit "annyeong") empty_world v
           [] [10%N] [10%N] [10%N] (fenced [] [10%N] (Json.dumps v) [10%N] [10%N]) []);
    [vm_compute; reflexivity|reflexivity..|by right|reflexivity].
Defined.

(** An answer that is empty or all white space is a parse failure. *)
Theorem summarize_blank (sv : services) (korean : str) (w : world)
    (text : str) (more : list str) :
  forallb is_space text = true →
  messages_create sv 4096 (summarize_prompt sv) (summarize_request ++ korean)
    = Ok (text :: more) →
  (summarize sv korean w).2 = Raise (Json.error "Expecting value").
Proof.
  intros Hws Hans.
  rewrite summarize_run. unfold summary_of. rewrite Hans. cbn [snd obind first_text].
  assert (strip text = []) as Hstrip.
  { pose proof (strip_around text [] [] Hws eq_refl eq_refl) as H.
    by rewrite !app_nil_r in H. }
  unfold strip_fence. rewrite Hstrip. reflexivity.
Qed.

Lemma summarize_blank_witness :
  (summarize (stub (fun _ => Ok []) (fun _ => Ok [lit "  "])) (lit "annyeong")
     empty_world).2
  = Raise (Json.error "Expecting value").
Proof.
  apply (summarize_blank _ _ _ (lit "  ") []); reflexivity.
Defined.


(** ** The stored document *)

(** The stored document determines the result: two results with the same
    encoding agree in every field. *)
Theorem stored_document_determines_result
    (id1 id2 original1 original2 korean1 korean2 at1 at2 : str)
    (summary1 summary2 : Json.value) :
  Json.plain summary1 = true → Json.plain summary2 = true →
  Json.dumps (make_result id1 original1 korean1 summary1 at1)
  = Json.dumps (make_result id2 original2 korean2 summary2 at2) →
  id1 = id2 ∧ original1 = original2 ∧ korean1 = korean2 ∧ summary1 = summary2
  ∧ at1 = at2.
Proof.
  intros H1 H2 Heq.
  assert (Ok (make_result id1 original1 korean1 summary1 at1)
          = Ok (make_result id2 original2 korean2 summary2 at2)) as Hr.
  { rewrite <-(loads_dumps (make_result id1 original1 korean1 summary1 at1))
      by (by rewrite plain_make_result).
    rewrite Heq. apply loads_dumps. by rewrite plain_make_result. }
  by injection Hr as -> _ -> -> -> ->.
Qed.

Lemma stored_document_determines_result_witness :
  lit "dQw4w9WgXcQ" = lit "dQw4w9WgXcQ" ∧ lit "Hello" = lit "Hello"
  ∧ lit "annyeong" = lit "annyeong" ∧ Json.Obj [] = Json.Obj []
  ∧ lit "2024-05-01T12:00:00" = lit "2024-05-01T12:00:00".
Proof.
  apply (stored_document_determines_result (lit "dQw4w9WgXcQ") (lit "dQw4w9WgXcQ")
           (lit "Hello") (lit "Hello") (lit "annyeong") (lit "annyeong")
           (lit "2024-05-01T12:00:00") (lit "2024-05-01T12:00:00")
           (Json.Obj []) (Json.Obj [])); reflexivity.
Defined.



(** ** Outbound calls *)

Lemma stage_calls_length sv url : length (stage_calls sv url) ≤ 4.
Proof.
  unfold stage_calls, fetch_calls.
  destruct (extract_video_id url) as [video_id|]; [|simpl; lia].
  rewrite length_app.
  destruct (api_fetch sv video_id (Some preferred_languages));
    destruct (transcript_of sv video_id) as [original|]; simpl; try lia;
    destruct (translation_of sv original); simpl; lia.
Qed.

(** One run makes at most four outbound calls (two fetches, one
    translation, one summary), and none at all when the API key is missing
    or the URL yields no identifier. *)
Theorem process_video_call_budget (sv : services) (job_id url : str) (w : world)
    (j : Job.t) :
  jobs w !! job_id = Some j →
  let calls := List.filter is_call
                 (drop (length (log w)) (log (process_video sv job_id url w).1)) in
  length calls ≤ 4
  ∧ (api_key_missing sv = true ∨ (∃ e, extract_video_id url = Raise e) → calls = []).
Proof.
  intros Hj calls. unfold calls. rewrite (process_video_run _ _ _ _ j Hj).
  cbn [fst]. rewrite new_events. unfold process_video_events.
  rewrite List.filter_app.
  assert (List.filter is_call
            match body_outcome sv url with
            | Ok _ => []
            | Raise e => handler_events sv job_id url j e
            end = []) as -> by (by destruct (body_outcome sv url)).
  rewrite app_nil_r.
  destruct (api_key_missing sv) eqn:Hkey.
  - unfold body_events. rewrite Hkey. simpl. split; [lia|done].
  - rewrite body_events_calls by done. split; [apply stage_calls_length|].
    intros [?|[e He]]; [done|]. unfold stage_calls. by rewrite He.
Qed.

Lemma process_video_call_budget_witness :
  let sv := stub (fun _ => Ok [lit "Hello"]) (fun _ => Ok [lit "annyeong"]) in
  let w := World (<[lit "job" := fresh_job]> ∅) ∅ [] in
  List.filter is_call (log (process_video sv (lit "job") (lit "not a link") w).1) = [].
Proof.
  intros sv w.
  destruct (process_video_call_budget sv (lit "job") (lit "not a link") w fresh_job)
    as [_ H]; [apply lookup_insert_eq|].
  apply H. right. eexists. vm_compute. reflexivity.
Defined.
